(** * Embedded CUE sheet playlist plugin (MPD)

    A shallow embedding of [src/playlist/EmbeddedCuePlaylistPlugin.cxx]:
    the tag selector [embcue_tag_pair], the open sequence
    [embcue_playlist_open_uri] and the pull operation
    [EmbeddedCuePlaylist::Read], together with the few C library
    routines they call.

    Conventions.
    - A [cstring] is the sequence of characters found at a [const char *];
      the string ends at the first NUL or at the end of the list.
    - The heap block behind [cuesheet] is a [list ascii] that contains its
      terminating NUL; [next], [line] and [eol] are offsets into it.  A read
      or write outside the block, or through a null pointer, is a [Fault].
    - The collaborators that are not part of this unit (the three tag
      scanners and the CUE parser) are interfaces (type classes) over an
      abstract state; recording instances make their invocations visible. *)

From Stdlib Require Import Ascii String ZArith Lia.
From stdpp Require Import base option list strings.

Local Open Scope char_scope.

(** ** Characters and C strings *)

Definition cstring := list ascii.

Definition NUL : ascii := "000".
Definition CR : ascii := "013".
Definition LF : ascii := "010".

Definition is_nul (c : ascii) : bool := Ascii.eqb c NUL.

(** Literal C strings, written as Rocq strings. *)
Definition cs (s : string) : cstring := list_ascii_of_string s.

(** The characters of a C string: everything before the first NUL. *)
Fixpoint c_chars (s : cstring) : cstring :=
  match s with
  | [] => []
  | c :: s' => if is_nul c then [] else c :: c_chars s'
  end.

(** [g_strdup]: a fresh block holding the characters and the terminator. *)
Definition g_strdup (s : cstring) : list ascii := c_chars s ++ [NUL].

(** ** glib routines *)

(** [g_ascii_tolower]: only 'A'..'Z' are mapped. *)
Definition g_ascii_tolower (c : ascii) : ascii :=
  let n := nat_of_ascii c in
  if (65 <=? n)%nat && (n <=? 90)%nat then ascii_of_nat (n + 32) else c.

(** The character under a [const char *]: the head, or the terminator. *)
Definition peek (s : cstring) : ascii :=
  match s with
  | [] => NUL
  | c :: _ => c
  end.

(** [g_ascii_strcasecmp]: both strings are walked while neither is at its
    terminator; the first pair of characters that differ after
    [g_ascii_tolower] gives the result (their difference), and when one
    string ends the result is the difference of the two characters reached
    (the terminator counting as 0). *)
Fixpoint g_ascii_strcasecmp (s1 s2 : cstring) : Z :=
  match s1, s2 with
  | c1 :: t1, c2 :: t2 =>
      if is_nul c1 || is_nul c2
      then (Z.of_nat (nat_of_ascii c1) - Z.of_nat (nat_of_ascii c2))%Z
      else
        let l1 := g_ascii_tolower c1 in
        let l2 := g_ascii_tolower c2 in
        if Ascii.eqb l1 l2 then g_ascii_strcasecmp t1 t2
        else (Z.of_nat (nat_of_ascii l1) - Z.of_nat (nat_of_ascii l2))%Z
  | _, _ =>
      (Z.of_nat (nat_of_ascii (peek s1)) - Z.of_nat (nat_of_ascii (peek s2)))%Z
  end.

Definition G_DIR_SEPARATOR : ascii := "/".

(** [g_path_is_absolute] on a POSIX host: the name starts with a slash. *)
Definition g_path_is_absolute (file_name : cstring) : bool :=
  Ascii.eqb (peek file_name) G_DIR_SEPARATOR.

Definition is_sep (c : ascii) : bool := Ascii.eqb c G_DIR_SEPARATOR.

Fixpoint skip_seps (s : list ascii) : list ascii :=
  match s with
  | c :: s' => if is_sep c then skip_seps s' else s
  | [] => []
  end.

Fixpoint upto_sep (s : list ascii) : list ascii :=
  match s with
  | c :: s' => if is_sep c then [] else c :: upto_sep s'
  | [] => []
  end.

(** [g_path_get_basename] on a POSIX host: trailing slashes are dropped and
    the last component is kept; [.] for the empty name, [/] for a name made
    of slashes only. *)
Definition g_path_get_basename (file_name : cstring) : cstring :=
  match c_chars file_name with
  | [] => cs "."
  | s =>
      match skip_seps (rev s) with
      | [] => cs "/"
      | r => rev (upto_sep r)
      end
  end.

(** ** Outcomes of C code

    [Fault] stands for undefined behaviour (a null pointer dereferenced, an
    access outside a block); [OutOfFuel] for a loop cut off by the model's
    iteration budget. *)

Inductive res (A : Type) : Type :=
  | Ok (a : A)
  | Fault
  | OutOfFuel.
Arguments Ok {A} a.
Arguments Fault {A}.
Arguments OutOfFuel {A}.

#[global] Instance res_ret : MRet res := fun A a => Ok a.
#[global] Instance res_bind : MBind res := fun A B k m =>
  match m with
  | Ok a => k a
  | Fault => Fault
  | OutOfFuel => OutOfFuel
  end.

#[global] Instance res_fmap : FMap res := fun A B g m =>
  match m with
  | Ok a => Ok (g a)
  | Fault => Fault
  | OutOfFuel => OutOfFuel
  end.

(** Dereferencing a pointer that may be null. *)
Definition deref {A : Type} (p : option A) : res A :=
  match p with
  | Some a => Ok a
  | None => Fault
  end.

(** ** Access to a character block through offsets *)

Definition load (m : list ascii) (i : nat) : res ascii := deref (m !! i).

Definition store (m : list ascii) (i : nat) (c : ascii) : res (list ascii) :=
  if decide (i < length m) then Ok (<[i := c]> m) else Fault.

Definition in_set (c : ascii) (accept : cstring) : bool :=
  existsb (Ascii.eqb c) (c_chars accept).

(** [strpbrk]: offset of the first character of the string at [s] that
    belongs to [accept]; null when the terminator is reached first. *)
Fixpoint strpbrk_from (l : list ascii) (i : nat) (accept : cstring)
  : res (option nat) :=
  match l with
  | [] => Fault
  | c :: l' =>
      if is_nul c then Ok None
      else if in_set c accept then Ok (Some i)
      else strpbrk_from l' (S i) accept
  end.

Definition strpbrk (m : list ascii) (s : nat) (accept : cstring)
  : res (option nat) :=
  strpbrk_from (drop s m) s accept.

(** The string a callee reads through a pointer into the block. *)
Fixpoint string_from (l : list ascii) : res cstring :=
  match l with
  | [] => Fault
  | c :: l' => if is_nul c then Ok [] else s ← string_from l'; Ok (c :: s)
  end.

Definition string_at (m : list ascii) (s : nat) : res cstring :=
  string_from (drop s m).

Definition strlen (m : list ascii) (s : nat) : res nat :=
  l ← string_at m s; Ok (length l).

(** ** Songs *)

(** Modelled from the spec: the track record ([Song.hxx] is not part of
    this unit).  It exposes a replaceable source reference; every other
    field is carried along untouched, here as one opaque component. *)
Record Song (M : Type) : Type := mkSong {
  uri : cstring;
  meta : M
}.
Arguments mkSong {M} uri meta.
Arguments uri {M} s.
Arguments meta {M} s.

(** Modelled from the spec: [Song::ReplaceURI] builds the same song under
    another source reference. *)
Definition ReplaceURI {M : Type} (s : Song M) (new_uri : cstring) : Song M :=
  {| uri := c_chars new_uri; meta := meta s |}.

(** ** The collaborators *)

(** The CUE parser, [cue/CueParser.hxx]: a state machine fed one line at a
    time.  [Get] hands out the latest completed song, if any. *)
Class CueParser (M P : Type) : Type := {
  new_CueParser : P;
  Feed : cstring → P → P;
  Get : P → option (Song M) * P;
  Finish : P → P
}.

Definition tag_pairs := list (cstring * cstring).

(** The three tag scanners.  A scan of the file at a path visits the
    (name, value) pairs it finds, in order, and may change the outside
    world [W]. *)
Class TagScanners (W : Type) : Type := {
  tag_file_scan : cstring → W → tag_pairs * W;
  tag_ape_scan2 : cstring → W → tag_pairs * W;
  tag_id3_scan : cstring → W → tag_pairs * W
}.

(** ** The provider *)

Record EmbeddedCuePlaylist (P : Type) : Type := mkPlaylist {
  filename : option cstring;
  cuesheet : option (list ascii);
  next : option nat;
  parser : option P
}.
Arguments mkPlaylist {P} filename cuesheet next parser.
Arguments filename {P} e.
Arguments cuesheet {P} e.
Arguments next {P} e.
Arguments parser {P} e.

Definition set_filename {P} (v : option cstring) (pl : EmbeddedCuePlaylist P) :=
  mkPlaylist v (cuesheet pl) (next pl) (parser pl).
Definition set_cuesheet {P} (v : option (list ascii)) (pl : EmbeddedCuePlaylist P) :=
  mkPlaylist (filename pl) v (next pl) (parser pl).
Definition set_next {P} (v : option nat) (pl : EmbeddedCuePlaylist P) :=
  mkPlaylist (filename pl) (cuesheet pl) v (parser pl).
Definition set_parser {P} (v : option P) (pl : EmbeddedCuePlaylist P) :=
  mkPlaylist (filename pl) (cuesheet pl) (next pl) v.

(** The constructor: three null pointers; [next] is left indeterminate. *)
Definition new_EmbeddedCuePlaylist {P} : EmbeddedCuePlaylist P :=
  mkPlaylist None None None None.

(** *** Tag selector *)

Definition embcue_tag_pair {P} (name value : cstring)
    (playlist : EmbeddedCuePlaylist P) : EmbeddedCuePlaylist P :=
  match cuesheet playlist with
  | None =>
      if Z.eqb (g_ascii_strcasecmp name (cs "cuesheet")) 0
      then set_cuesheet (Some (g_strdup value)) playlist
      else playlist
  | Some _ => playlist
  end.

(** A scanner calls the handler's [pair] callback on every pair it visits. *)
Definition visit_pairs {P} (pairs : tag_pairs)
    (playlist : EmbeddedCuePlaylist P) : EmbeddedCuePlaylist P :=
  foldl (fun pl nv => embcue_tag_pair (fst nv) (snd nv) pl) playlist pairs.

(** *** Open *)

Definition embcue_playlist_open_uri {M P W} `{!CueParser M P} `{!TagScanners W}
    (uri : cstring) (w : W) : option (EmbeddedCuePlaylist P) * W :=
  if negb (g_path_is_absolute uri) then (None, w)
  else
    let playlist := new_EmbeddedCuePlaylist in
    let '(pairs, w) := tag_file_scan uri w in
    let playlist := visit_pairs pairs playlist in
    let '(playlist, w) :=
      match cuesheet playlist with
      | None =>
          let '(pairs, w) := tag_ape_scan2 uri w in
          let playlist := visit_pairs pairs playlist in
          match cuesheet playlist with
          | None =>
              let '(pairs, w) := tag_id3_scan uri w in
              (visit_pairs pairs playlist, w)
          | Some _ => (playlist, w)
          end
      | Some _ => (playlist, w)
      end in
    match cuesheet playlist with
    | None => (None, w)
    | Some _ =>
        let playlist := set_filename (Some (g_path_get_basename uri)) playlist in
        let playlist := set_next (Some 0) playlist in
        let playlist := set_parser (Some new_CueParser) playlist in
        (Some playlist, w)
    end.

(** *** Read *)

(** The characters [strpbrk] stops at in [Read]. *)
Definition eol_chars : cstring := cs (String CR (String LF EmptyString)).

(** One turn of the [while] body: cut the line at [next], move [next] past
    it, feed it, and ask the parser for a song. *)
Definition feed_line {M P} `{!CueParser M P} (pl : EmbeddedCuePlaylist P)
  : res (option (Song M) * EmbeddedCuePlaylist P) :=
  buf ← deref (cuesheet pl);
  line ← deref (next pl);
  eol ← strpbrk buf line eol_chars;
  pl ← match eol with
       | Some e =>
           buf' ← store buf e NUL;
           Ok (set_next (Some (S e)) (set_cuesheet (Some buf') pl))
       | None =>
           n ← strlen buf line;
           Ok (set_next (Some (line + n)) pl)
       end;
  buf ← deref (cuesheet pl);
  text ← string_at buf line;
  p ← deref (parser pl);
  let p := Feed text p in
  let '(song, p) := Get p in
  let pl := set_parser (Some p) pl in
  match song with
  | Some s => f ← deref (filename pl); Ok (Some (ReplaceURI s f), pl)
  | None => Ok (None, pl)
  end.

(** The [while] loop and what follows it. *)
Fixpoint feed_lines {M P} `{!CueParser M P} (fuel : nat)
    (pl : EmbeddedCuePlaylist P)
  : res (option (Song M) * EmbeddedCuePlaylist P) :=
  match fuel with
  | 0 => OutOfFuel
  | S fuel =>
      buf ← deref (cuesheet pl);
      nxt ← deref (next pl);
      c ← load buf nxt;
      if is_nul c then
        p ← deref (parser pl);
        let p := Finish p in
        let '(song, p) := Get p in
        let pl := set_parser (Some p) pl in
        match song with
        | Some s => f ← deref (filename pl); Ok (Some (ReplaceURI s f), pl)
        | None => Ok (None, pl)
        end
      else
        r ← feed_line pl;
        match fst r with
        | Some s => Ok r
        | None => feed_lines fuel (snd r)
        end
  end.

Definition Read_within {M P} `{!CueParser M P} (fuel : nat)
    (pl : EmbeddedCuePlaylist P)
  : res (option (Song M) * EmbeddedCuePlaylist P) :=
  p ← deref (parser pl);
  let '(song, p) := Get p in
  let pl := set_parser (Some p) pl in
  match song with
  | Some s => Ok (Some s, pl)
  | None => feed_lines fuel pl
  end.

(** The loop condition is evaluated at most once per character of the block
    (terminator included), which is the budget [Read] runs with. *)
Definition Read {M P} `{!CueParser M P} (pl : EmbeddedCuePlaylist P)
  : res (option (Song M) * EmbeddedCuePlaylist P) :=
  Read_within (from_option length 0 (cuesheet pl)) pl.

(** ** Recording instances

    Wrapping a parser so that every call made on it is appended to a list
    turns "which parser operations does [Read] perform, and in which order"
    into a property of the provider's final state. *)

Inductive ParserCall : Type :=
  | CallFeed (line : cstring)
  | CallGet
  | CallFinish.

Record Logged (P : Type) : Type := mkLogged {
  inner : P;
  calls : list ParserCall
}.
Arguments mkLogged {P} inner calls.
Arguments inner {P} l.
Arguments calls {P} l.

#[global] Instance Logged_parser {M P} `{!CueParser M P}
  : CueParser M (Logged P) := {|
  new_CueParser := mkLogged new_CueParser [];
  Feed line q := mkLogged (Feed line (inner q)) (calls q ++ [CallFeed line]);
  Get q := (fst (Get (inner q)),
            mkLogged (snd (Get (inner q))) (calls q ++ [CallGet]));
  Finish q := mkLogged (Finish (inner q)) (calls q ++ [CallFinish])
|}.

(** The lines fed, and the number of [Finish] calls, in a call list. *)
Fixpoint fed_lines (cl : list ParserCall) : list cstring :=
  match cl with
  | [] => []
  | CallFeed l :: cl' => l :: fed_lines cl'
  | _ :: cl' => fed_lines cl'
  end.

Fixpoint finish_count (cl : list ParserCall) : nat :=
  match cl with
  | [] => 0
  | CallFinish :: cl' => S (finish_count cl')
  | _ :: cl' => finish_count cl'
  end.

(** Forgetting the record. *)
Definition unlog {P} (pl : EmbeddedCuePlaylist (Logged P))
  : EmbeddedCuePlaylist P :=
  mkPlaylist (filename pl) (cuesheet pl) (next pl) (inner <$> parser pl).

Definition calls_of {P} (pl : EmbeddedCuePlaylist (Logged P))
  : list ParserCall :=
  from_option calls [] (parser pl).

Definition unlog_result {M P}
    (x : option (Song M) * EmbeddedCuePlaylist (Logged P))
  : option (Song M) * EmbeddedCuePlaylist P :=
  (fst x, unlog (snd x)).

Inductive Adapter : Type :=
  | ScanFile
  | ScanApe
  | ScanId3.

(** A world that remembers which scanner was run on which path. *)
Record Watched (W : Type) : Type := mkWatched {
  world : W;
  scans : list (Adapter * cstring)
}.
Arguments mkWatched {W} world scans.
Arguments world {W} w.
Arguments scans {W} w.

#[global] Instance Watched_scanners {W} `{!TagScanners W}
  : TagScanners (Watched W) := {|
  tag_file_scan path w :=
    (fst (tag_file_scan path (world w)),
     mkWatched (snd (tag_file_scan path (world w)))
               (scans w ++ [(ScanFile, path)]));
  tag_ape_scan2 path w :=
    (fst (tag_ape_scan2 path (world w)),
     mkWatched (snd (tag_ape_scan2 path (world w)))
               (scans w ++ [(ScanApe, path)]));
  tag_id3_scan path w :=
    (fst (tag_id3_scan path (world w)),
     mkWatched (snd (tag_id3_scan path (world w)))
               (scans w ++ [(ScanId3, path)]))
|}.

(** ** Concrete collaborators, for closed examples *)

(** A file system whose files carry fixed tags in the three containers. *)
Record TaggedFile : Type := mkTagged {
  file_tags : tag_pairs;
  ape_tags : tag_pairs;
  id3_tags : tag_pairs
}.

Definition Disk := cstring → TaggedFile.

#[global] Instance Disk_scanners : TagScanners Disk := {|
  tag_file_scan path d := (file_tags (d path), d);
  tag_ape_scan2 path d := (ape_tags (d path), d);
  tag_id3_scan path d := (id3_tags (d path), d)
|}.

(** Modelled from the spec: the CUE parser engine ([cue/CueParser.cxx] is
    not part of this unit): it is fed one line at a time, a completed song
    becomes available through [Get] after zero or more feeds, and [Finish]
    flushes what is pending.  The stand-in keeps the engine's three song
    slots ([current], [previous], [finished]) and its [end] flag, and
    understands two commands: a [FILE ] line sets the sheet's own file
    reference, a [TRACK] line starts a song. *)
Module Slots.

Record t : Type := mk {
  file_ref : cstring;
  current : option (Song cstring);
  previous : option (Song cstring);
  finished : option (Song cstring);
  ended : bool
}.

Definition empty : t := mk [] None None None false.

Fixpoint starts_with (p s : cstring) : bool :=
  match p, s with
  | [], _ => true
  | a :: p', b :: s' => Ascii.eqb a b && starts_with p' s'
  | _ :: _, [] => false
  end.

Definition commit (p : t) : t :=
  match current p with
  | None => p
  | Some _ => mk (file_ref p) None (current p) (previous p) (ended p)
  end.

Definition feed (line : cstring) (p : t) : t :=
  if ended p then p
  else if starts_with (cs "FILE ") line then
    let p := commit p in
    mk (drop 5 line) (current p) (previous p) (finished p) (ended p)
  else if starts_with (cs "TRACK") line then
    let p := commit p in
    mk (file_ref p) (Some (mkSong (file_ref p) line))
       (previous p) (finished p) (ended p)
  else p.

Definition finish (p : t) : t :=
  if ended p then p
  else
    let p := commit p in
    mk (file_ref p) (current p) (previous p) (finished p) true.

Definition get (p : t) : option (Song cstring) * t :=
  let p :=
    match finished p with
    | None =>
        if ended p
        then mk (file_ref p) (current p) None (previous p) (ended p)
        else p
    | Some _ => p
    end in
  (finished p, mk (file_ref p) (current p) (previous p) None (ended p)).

#[global] Instance parser : CueParser cstring t := {|
  new_CueParser := empty;
  Feed := feed;
  Get := get;
  Finish := finish
|}.

End Slots.

(** Running [Read] several times in a row, keeping what each call
    returned.  The run stops at the first call that does not complete. *)
Fixpoint Read_times {M P} `{!CueParser M P} (n : nat)
    (pl : EmbeddedCuePlaylist P)
  : res (list (option (Song M)) * EmbeddedCuePlaylist P) :=
  match n with
  | 0 => Ok ([], pl)
  | S n =>
      r ← Read pl;
      rs ← Read_times n (snd r);
      Ok (fst r :: fst rs, snd rs)
  end.

(** ** Specification-side notions *)

(** Two names are equal up to ASCII case. *)
Definition casefold_eq (a b : cstring) : Prop :=
  g_ascii_tolower <$> c_chars a = g_ascii_tolower <$> c_chars b.

#[global] Instance casefold_eq_dec a b : Decision (casefold_eq a b).
Proof. unfold casefold_eq. apply _. Defined.

(** The value the selector is specified to pick from a stream of pairs:
    that of the first pair named CUESHEET, in any letter case. *)
Fixpoint first_cuesheet (pairs : tag_pairs) : option cstring :=
  match pairs with
  | [] => None
  | nv :: rest =>
      if bool_decide (casefold_eq (fst nv) (cs "CUESHEET"))
      then Some (snd nv)
      else first_cuesheet rest
  end.

(** The provider [open] hands out once the value [v] has been captured. *)
Definition opened {M P} `{!CueParser M P} (uri v : cstring)
  : EmbeddedCuePlaylist P :=
  mkPlaylist (Some (g_path_get_basename uri)) (Some (g_strdup v))
             (Some 0) (Some new_CueParser).

(** *** Lines of the captured text *)

Definition is_eol (c : ascii) : bool := in_set c eol_chars.

(** The first line of a text, and the text after its terminator, if the
    line has one. *)
Fixpoint cut_line (s : list ascii) : list ascii * option (list ascii) :=
  match s with
  | [] => ([], None)
  | c :: s' =>
      if is_eol c then ([], Some s')
      else (c :: fst (cut_line s'), snd (cut_line s'))
  end.

(** How many characters the first line takes, terminator included. *)
Definition line_span (s : list ascii) : nat :=
  match snd (cut_line s) with
  | Some _ => S (length (fst (cut_line s)))
  | None => length (fst (cut_line s))
  end.

(** The text split at every terminator character; each CR and each LF ends
    a line on its own, and a last line without terminator counts when it is
    not empty. *)
Fixpoint lines (s : list ascii) : list cstring :=
  match s with
  | [] => []
  | c :: s' =>
      if is_eol c then [] :: lines s'
      else
        match lines s' with
        | [] => [[c]]
        | l :: ls => (c :: l) :: ls
        end
  end.

(** What [Read] leaves of a character it has passed. *)
Definition blank (c : ascii) : ascii := if is_eol c then NUL else c.

(** *** Providers that [Read] can work on *)

(** A block whose first NUL is its last character. *)
Fixpoint terminated (l : list ascii) : bool :=
  match l with
  | [] => false
  | c :: l' =>
      match l' with
      | [] => is_nul c
      | _ => negb (is_nul c) && terminated l'
      end
  end.

(** All four pointers are set and [next] points into the block, at a string
    that runs to the block's end. *)
Definition well_formed {P} (pl : EmbeddedCuePlaylist P) : bool :=
  match filename pl, cuesheet pl, next pl, parser pl with
  | Some _, Some buf, Some nxt, Some _ => terminated (drop nxt buf)
  | _, _, _, _ => false
  end.

(** The text not yet consumed: from [next] up to the terminator. *)
Definition unread {P} (pl : EmbeddedCuePlaylist P) : list ascii :=
  match cuesheet pl, next pl with
  | Some buf, Some nxt => c_chars (drop nxt buf)
  | _, _ => []
  end.

(** *** Parser calls as data *)

Definition apply_call {M P} `{!CueParser M P} (p : P) (c : ParserCall) : P :=
  match c with
  | CallFeed line => Feed line p
  | CallGet => snd (Get p)
  | CallFinish => Finish p
  end.

Definition apply_calls {M P} `{!CueParser M P} (cl : list ParserCall) (p : P)
  : P :=
  foldl apply_call p cl.

(** Each line fed is followed by one [Get]. *)
Fixpoint line_calls (ls : list cstring) : list ParserCall :=
  match ls with
  | [] => []
  | l :: ls' => CallFeed l :: CallGet :: line_calls ls'
  end.

(** The calls [Read] ends with when it leaves the loop by its condition. *)
Definition end_calls (fin : bool) : list ParserCall :=
  if fin then [CallFinish; CallGet] else [].

(** A provider whose block reads [pre], then the unread text [rest], then
    the terminator, with [next] at the start of [rest]. *)
Definition at_rest {P} (f : cstring) (pre rest : list ascii) (p : P)
  : EmbeddedCuePlaylist P :=
  mkPlaylist (Some f) (Some (pre ++ rest ++ [NUL])) (Some (length pre))
             (Some p).

(** The same provider once [k] more characters have been passed. *)
Definition passed {P} (f : cstring) (pre rest : list ascii) (k : nat) (p : P)
  : EmbeddedCuePlaylist P :=
  at_rest f (pre ++ (blank <$> take k rest)) (drop k rest) p.

(** A completed run of the loop started on [at_rest f pre rest p]: [k]
    characters were passed, the lines [fed] were fed to the parser, and
    [fin] tells whether the loop was left through its condition. *)
Definition loop_post {M P} `{!CueParser M P} (f : cstring)
    (pre rest : list ascii) (p : P) (r : option (Song M))
    (pl' : EmbeddedCuePlaylist P) (k : nat) (fed : list cstring) (fin : bool)
  : Prop :=
  pl' = passed f pre rest k (apply_calls (line_calls fed ++ end_calls fin) p) ∧
  k ≤ length rest ∧
  fed ++ lines (drop k rest) = lines rest ∧
  length fed ≤ k ∧
  (fin = true → k = length rest) ∧
  (r = None → fin = true) ∧
  (fin = false → fed ≠ []) ∧
  (∀ s, r = Some s → uri s = c_chars f).

(** A completed [Read] on [at_rest f pre rest q], seen through a recording
    parser: the provider left behind, the calls made, and their relation to
    the text.  [k], [fed] and [fin] are as in [loop_post]. *)
Definition read_post {M P} `{!CueParser M P} (f : cstring)
    (pre rest : list ascii) (q : Logged P) (r : option (Song M))
    (pl' : EmbeddedCuePlaylist (Logged P)) (k : nat) (fed : list cstring)
    (fin : bool) : Prop :=
  (∃ q', pl' = passed f pre rest k q' ∧
         calls q' = calls q ++ CallGet :: line_calls fed ++ end_calls fin) ∧
  k ≤ length rest ∧
  fed ++ lines (drop k rest) = lines rest ∧
  length fed ≤ k ∧
  (fin = true → k = length rest) ∧
  (r = None → fin = true) ∧
  (∀ s, fst (Get (inner q)) = Some s →
        r = Some s ∧ k = 0 ∧ fed = [] ∧ fin = false) ∧
  (fst (Get (inner q)) = None → ∀ s, r = Some s → uri s = c_chars f).

(** The value the fall-back chain of [open] settles on: the first selection
    among the three scans, each run in the world the previous one left. *)
Definition selected {W} `{!TagScanners W} (uri : cstring) (w : W)
  : option cstring :=
  let a := tag_file_scan uri w in
  let b := tag_ape_scan2 uri (snd a) in
  let c := tag_id3_scan uri (snd b) in
  match first_cuesheet (fst a) with
  | Some v => Some v
  | None =>
      match first_cuesheet (fst b) with
      | Some v => Some v
      | None => first_cuesheet (fst c)
      end
  end.

(** ** Sample inputs *)

Definition album_uri : cstring := cs "/music/album.flac".

Definition remote_uri : cstring := cs "http://example.org/album.flac".

(** A sheet with its own file reference and two tracks, the first two lines
    ending in CR LF, the last in LF. *)
Definition two_track_sheet : cstring :=
  cs "FILE dummy.wav" ++ [CR; LF] ++ cs "TRACK 01" ++ [CR; LF] ++
  cs "TRACK 02" ++ [LF].

(** Every file carries the two-track sheet in its native tags. *)
Definition album_disk : Disk := fun _ =>
  mkTagged [(cs "TITLE", cs "Live"); (cs "CueSheet", two_track_sheet)] [] [].

(** Every file carries a CUESHEET tag whose value is empty. *)
Definition empty_sheet_disk : Disk := fun _ =>
  mkTagged [(cs "CUESHEET", [])] [] [].

(** No native tags; an APE sheet and a different ID3 sheet. *)
Definition mixed_disk : Disk := fun _ =>
  mkTagged [(cs "ARTIST", cs "Nobody")]
           [(cs "cuesheet", cs "TRACK 01"); (cs "CUESHEET", cs "TRACK 02")]
           [(cs "CUESHEET", cs "TRACK 09")].

(** A parser that already holds a completed song. *)
Definition backlog_parser : Slots.t :=
  Slots.mk (cs "dummy.wav") None None
           (Some (mkSong (cs "dummy.wav") (cs "TRACK 07"))) true.

Definition backlog_playlist : EmbeddedCuePlaylist (Logged Slots.t) :=
  at_rest (cs "album.flac") [] (cs "TRACK 08") (mkLogged backlog_parser []).

(** How many of the results are end-of-sequence. *)
Fixpoint eos_count {A} (rs : list (option A)) : nat :=
  match rs with
  | [] => 0
  | None :: rs' => S (eos_count rs')
  | Some _ :: rs' => eos_count rs'
  end.

(** A text with every LF turned into CR LF. *)
Fixpoint with_crlf (s : list ascii) : list ascii :=
  match s with
  | [] => []
  | c :: s' =>
      if Ascii.eqb c LF then CR :: LF :: with_crlf s' else c :: with_crlf s'
  end.

(** The lines that are not empty. *)
Fixpoint nonempty_lines (ls : list cstring) : list cstring :=
  match ls with
  | [] => []
  | [] :: ls' => nonempty_lines ls'
  | l :: ls' => l :: nonempty_lines ls'
  end.

(** Two track lines separated by a single LF. *)
Definition lf_sheet : cstring := cs "TRACK 01" ++ [LF] ++ cs "TRACK 02".

(** The provider over an empty sheet, and what the first [Read] makes of
    it. *)
Definition empty_playlist : EmbeddedCuePlaylist (Logged Slots.t) :=
  opened album_uri [].

Definition ended_playlist : EmbeddedCuePlaylist (Logged Slots.t) :=
  at_rest (cs "album.flac") [] []
    (mkLogged (Slots.mk [] None None None true)
              [CallGet; CallFinish; CallGet]).

(** ** More parser-call bookkeeping *)

(** No line is fed in a call list. *)
Fixpoint no_feed (cl : list ParserCall) : bool :=
  match cl with
  | [] => true
  | CallFeed _ :: _ => false
  | _ :: cl' => no_feed cl'
  end.

(** Every [Feed] of a call list comes before its first [Finish]. *)
Fixpoint feeds_precede_finish (cl : list ParserCall) : bool :=
  match cl with
  | [] => true
  | CallFinish :: cl' => no_feed cl'
  | _ :: cl' => feeds_precede_finish cl'
  end.

(** A character that may occur in a line handed to the parser. *)
Definition line_char (c : ascii) : Prop := c ≠ CR ∧ c ≠ LF ∧ c ≠ NUL.

(** A parser that never has a song. *)
#[global] Instance Mute_parser {M} : CueParser M unit := {|
  new_CueParser := tt;
  Feed _ p := p;
  Get p := (None, p);
  Finish p := p
|}.

(** ** Tag settings: [src/tag/Settings.hxx]

    [global_tag_mask] is an unsigned integer whose type, [tag_mask_t], is
    declared in a header outside this unit; it is passed to the model as an
    explicit argument.  [unsigned] has 32 bits. *)

Definition UINT_BITS : Z := 32.

(** [1u << tag]: the shift is undefined once the count reaches the width of
    [unsigned]. *)
Definition shift_1u (tag : Z) : res Z :=
  if (0 <=? tag)%Z && (tag <? UINT_BITS)%Z
  then Ok (Z.shiftl 1 tag mod 2 ^ UINT_BITS)%Z
  else Fault.

(** [IsTagEnabled(unsigned tag)]: the masked value, converted to [bool]. *)
Definition IsTagEnabled (global_tag_mask : Z) (tag : Z) : res bool :=
  bit ← shift_1u tag;
  Ok (negb (Z.land global_tag_mask bit =? 0)%Z).

(** [IsTagEnabled(TagType tag)]: [TagType] is an enumeration declared in
    [TagType.h], outside this unit; [number] gives an enumerator's value,
    which is what [unsigned(tag)] converts it to. *)
Definition IsTagEnabled_TagType {TagType : Type} (number : TagType → Z)
    (global_tag_mask : Z) (tag : TagType) : res bool :=
  IsTagEnabled global_tag_mask (number tag).

(** *** The plugin's entry points *)

(** [embcue_playlist_read]: the provider is cast back and read. *)
Definition embcue_playlist_read {M P} `{!CueParser M P}
    (playlist : EmbeddedCuePlaylist P)
  : res (option (Song M) * EmbeddedCuePlaylist P) :=
  Read playlist.

(** A parser that has no song, whatever it is called with. *)
Definition silent {M P} `{!CueParser M P} (p : P) : Prop :=
  ∀ cl, fst (Get (apply_calls cl p)) = None.

(** The provider a first [Read] leaves behind. *)
Definition after_Read {M P} `{!CueParser M P} (pl : EmbeddedCuePlaylist P)
  : EmbeddedCuePlaylist P :=
  match Read pl with
  | Ok r => snd r
  | _ => pl
  end.

(** A text of two lines without any track. *)
Definition remark_sheet : cstring :=
  cs "REM first" ++ [CR; LF] ++ cs "REM second".

(** * Properties *)

(** ** Characters and C strings *)

Example basename_album :
  g_path_get_basename (cs "/music/album.flac") = cs "album.flac".
Proof. reflexivity. Qed.

Example basename_dir : g_path_get_basename (cs "/music/live//") = cs "live".
Proof. reflexivity. Qed.

Example strcasecmp_mixed :
  g_ascii_strcasecmp (cs "CueSheet") (cs "cuesheet") = 0%Z.
Proof. reflexivity. Qed.

Example strcasecmp_prefix :
  g_ascii_strcasecmp (cs "CUE") (cs "cuesheet") = (-115)%Z.
Proof. reflexivity. Qed.

Lemma is_nul_true c : is_nul c = true ↔ c = NUL.
Proof. unfold is_nul. apply Ascii.eqb_eq. Qed.

Lemma is_nul_false c : is_nul c = false ↔ c ≠ NUL.
Proof. unfold is_nul. apply Ascii.eqb_neq. Qed.

Lemma nat_of_ascii_zero c : nat_of_ascii c = 0 ↔ c = NUL.
Proof.
  split; [| intros ->; reflexivity].
  intros H. rewrite <- (ascii_nat_embedding c), H. reflexivity.
Qed.

Lemma ascii_diff_zero a b :
  (Z.of_nat (nat_of_ascii a) - Z.of_nat (nat_of_ascii b) = 0)%Z ↔ a = b.
Proof.
  split; [| intros ->; lia].
  intros H. assert (E : nat_of_ascii a = nat_of_ascii b) by lia.
  rewrite <- (ascii_nat_embedding a), E. apply ascii_nat_embedding.
Qed.

Lemma c_chars_no_nul s : Forall (λ c, c ≠ NUL) (c_chars s).
Proof.
  induction s as [| c s IH]; simpl; [constructor |].
  destruct (is_nul c) eqn:E; constructor; [| exact IH].
  by apply is_nul_false.
Qed.

Lemma c_chars_clean s : Forall (λ c, c ≠ NUL) s → c_chars s = s.
Proof.
  induction 1 as [| c s Hc _ IH]; simpl; [reflexivity |].
  apply is_nul_false in Hc. rewrite Hc, IH. reflexivity.
Qed.

Lemma c_chars_idemp s : c_chars (c_chars s) = c_chars s.
Proof. apply c_chars_clean, c_chars_no_nul. Qed.

(** ** Case-insensitive comparison *)

Lemma g_ascii_strcasecmp_zero s1 s2 :
  g_ascii_strcasecmp s1 s2 = 0%Z ↔ casefold_eq s1 s2.
Proof.
  unfold casefold_eq. revert s2.
  induction s1 as [| c1 t1 IH]; intros [| c2 t2]; simpl.
  - split; intros _; reflexivity.
  - destruct (is_nul c2) eqn:E2; simpl.
    + apply is_nul_true in E2 as ->. split; intros _; reflexivity.
    + apply is_nul_false in E2. split; [| discriminate].
      intros H. exfalso. apply E2, nat_of_ascii_zero.
      change (nat_of_ascii NUL) with 0 in H. lia.
  - destruct (is_nul c1) eqn:E1; simpl.
    + apply is_nul_true in E1 as ->. split; intros _; reflexivity.
    + apply is_nul_false in E1. split; [| discriminate].
      intros H. exfalso. apply E1, nat_of_ascii_zero.
      change (nat_of_ascii NUL) with 0 in H. lia.
  - destruct (is_nul c1) eqn:E1, (is_nul c2) eqn:E2; simpl.
    + apply is_nul_true in E1 as ->, E2 as ->. split; intros _; reflexivity.
    + apply is_nul_true in E1 as ->. apply is_nul_false in E2.
      rewrite ascii_diff_zero. split; [by intros <- | discriminate].
    + apply is_nul_true in E2 as ->. apply is_nul_false in E1.
      rewrite ascii_diff_zero. split; [by intros -> | discriminate].
    + destruct (Ascii.eqb_spec (g_ascii_tolower c1) (g_ascii_tolower c2))
        as [El | El].
      * rewrite IH, El. split; [intros H; f_equal; exact H | by intros [=]].
      * rewrite ascii_diff_zero. split; [done | by intros [=]].
Qed.

(** ** Tag selector *)

Lemma casefold_upper_lower name :
  casefold_eq name (cs "CUESHEET") ↔ casefold_eq name (cs "cuesheet").
Proof. unfold casefold_eq. reflexivity. Qed.

Lemma embcue_tag_pair_captured {P} name value (pl : EmbeddedCuePlaylist P) :
  is_Some (cuesheet pl) → embcue_tag_pair name value pl = pl.
Proof. intros [b Hb]. unfold embcue_tag_pair. by rewrite Hb. Qed.

Lemma visit_pairs_captured {P} pairs (pl : EmbeddedCuePlaylist P) :
  is_Some (cuesheet pl) → visit_pairs pairs pl = pl.
Proof.
  unfold visit_pairs. induction pairs as [| nv pairs IH]; simpl; [done |].
  intros H. rewrite embcue_tag_pair_captured by done. by apply IH.
Qed.

Lemma set_cuesheet_None {P} (pl : EmbeddedCuePlaylist P) :
  cuesheet pl = None → set_cuesheet None pl = pl.
Proof. destruct pl; simpl; intros ->; reflexivity. Qed.

Lemma visit_pairs_fresh {P} pairs (pl : EmbeddedCuePlaylist P) :
  cuesheet pl = None →
  visit_pairs pairs pl = set_cuesheet (g_strdup <$> first_cuesheet pairs) pl.
Proof.
  unfold visit_pairs. revert pl.
  induction pairs as [| [n v] pairs IH]; intros pl Hpl; simpl.
  - by rewrite set_cuesheet_None.
  - unfold embcue_tag_pair at 2. rewrite Hpl.
    destruct (Z.eqb_spec (g_ascii_strcasecmp n (cs "cuesheet")) 0) as [E | E].
    + apply g_ascii_strcasecmp_zero, casefold_upper_lower in E.
      rewrite bool_decide_eq_true_2 by done.
      change (foldl _ ?a pairs) with (visit_pairs pairs a).
      rewrite visit_pairs_captured by (simpl; eauto). reflexivity.
    + rewrite bool_decide_eq_false_2; [by apply IH |].
      intros H. apply E, g_ascii_strcasecmp_zero, casefold_upper_lower, H.
Qed.

(** ** Open *)

Section open_sequence.
Context {M P W : Type} `{!CueParser M P} `{!TagScanners W}.

Lemma open_not_absolute (uri : cstring) (w : W) :
  g_path_is_absolute uri = false →
  embcue_playlist_open_uri (P := P) uri w = (None, w).
Proof. unfold embcue_playlist_open_uri. by intros ->. Qed.

(** The fall-back chain, in terms of what each scan would select. *)
Lemma open_absolute (uri : cstring) (w : W) :
  g_path_is_absolute uri = true →
  embcue_playlist_open_uri (P := P) uri w =
    let a := tag_file_scan uri w in
    match first_cuesheet (fst a) with
    | Some v => (Some (opened uri v), snd a)
    | None =>
        let b := tag_ape_scan2 uri (snd a) in
        match first_cuesheet (fst b) with
        | Some v => (Some (opened uri v), snd b)
        | None =>
            let c := tag_id3_scan uri (snd b) in
            match first_cuesheet (fst c) with
            | Some v => (Some (opened uri v), snd c)
            | None => (None, snd c)
            end
        end
    end.
Proof.
  intros Habs. unfold embcue_playlist_open_uri. rewrite Habs. simpl.
  destruct (tag_file_scan uri w) as [pa wa]. simpl.
  rewrite visit_pairs_fresh by reflexivity.
  destruct (first_cuesheet pa) as [va |]; simpl; [reflexivity |].
  destruct (tag_ape_scan2 uri wa) as [pb wb]. simpl.
  rewrite visit_pairs_fresh by reflexivity.
  destruct (first_cuesheet pb) as [vb |]; simpl; [reflexivity |].
  destruct (tag_id3_scan uri wb) as [pc wc]. simpl.
  rewrite visit_pairs_fresh by reflexivity.
  destruct (first_cuesheet pc) as [vc |]; reflexivity.
Qed.

End open_sequence.

(** ** Lines *)

Lemma is_eol_spec c : is_eol c = true ↔ c = CR ∨ c = LF.
Proof.
  unfold is_eol, in_set. simpl. rewrite !orb_true_iff, !Ascii.eqb_eq.
  intuition discriminate.
Qed.

Lemma is_eol_not_nul c : is_eol c = true → c ≠ NUL.
Proof. rewrite is_eol_spec. intros [-> | ->]; discriminate. Qed.

Lemma blank_not_eol c : is_eol c = false → blank c = c.
Proof. unfold blank. by intros ->. Qed.

Lemma blank_eol c : is_eol c = true → blank c = NUL.
Proof. unfold blank. by intros ->. Qed.

Lemma cut_line_no_eol s : Forall (λ c, is_eol c = false) (fst (cut_line s)).
Proof.
  induction s as [| c s IH]; simpl; [constructor |].
  destruct (is_eol c) eqn:E; simpl; by constructor.
Qed.

Lemma cut_line_Some s t :
  snd (cut_line s) = Some t →
  ∃ e, is_eol e = true ∧ s = fst (cut_line s) ++ e :: t.
Proof.
  induction s as [| c s IH]; simpl; [discriminate |].
  destruct (is_eol c) eqn:E; simpl.
  - intros [= <-]. by exists c.
  - intros H. destruct (IH H) as (e & He & Hs). exists e. split; [done |].
    by rewrite <- Hs.
Qed.

Lemma cut_line_None s : snd (cut_line s) = None → s = fst (cut_line s).
Proof.
  induction s as [| c s IH]; simpl; [done |].
  destruct (is_eol c); simpl; [discriminate |].
  intros H. by rewrite <- IH.
Qed.

Lemma line_span_take s :
  blank <$> take (line_span s) s =
  fst (cut_line s) ++ match snd (cut_line s) with
                      | Some _ => [NUL]
                      | None => []
                      end.
Proof.
  unfold line_span. induction s as [| c s IH]; simpl; [reflexivity |].
  destruct (is_eol c) eqn:E; simpl.
  - f_equal. by apply blank_eol.
  - rewrite <- IH. destruct (snd (cut_line s)); simpl; f_equal;
      by apply blank_not_eol.
Qed.

Lemma line_span_drop s :
  drop (line_span s) s = default [] (snd (cut_line s)).
Proof.
  unfold line_span. induction s as [| c s IH]; simpl; [reflexivity |].
  destruct (is_eol c) eqn:E; simpl; [apply drop_0 |].
  rewrite <- IH. by destruct (snd (cut_line s)).
Qed.

Lemma line_span_bounds s : s ≠ [] → 0 < line_span s ≤ length s.
Proof.
  unfold line_span. induction s as [| c s IH]; [done |]. intros _. simpl.
  destruct (is_eol c) eqn:E; simpl; [lia |].
  destruct s as [| c' s]; [simpl; lia |].
  specialize (IH ltac:(discriminate)).
  destruct (snd (cut_line (c' :: s))); simpl in *; lia.
Qed.

Lemma lines_cut s :
  s ≠ [] → lines s = fst (cut_line s) :: lines (drop (line_span s) s).
Proof.
  rewrite line_span_drop.
  induction s as [| c s IH]; [done |]. intros _. simpl.
  destruct (is_eol c) eqn:E; simpl; [reflexivity |].
  destruct s as [| c' s]; [reflexivity |].
  by rewrite IH.
Qed.

Lemma lines_length s : length (lines s) ≤ length s.
Proof.
  induction s as [| c s IH]; simpl; [lia |].
  destruct (is_eol c); simpl; [lia |].
  destruct (lines s); simpl in *; lia.
Qed.

(** ** Blocks *)

Lemma strpbrk_from_hit l e t i :
  Forall (λ c, is_eol c = false) l → Forall (λ c, c ≠ NUL) l →
  is_eol e = true →
  strpbrk_from (l ++ e :: t) i eol_chars = Ok (Some (i + length l)).
Proof.
  intros Hl Hn He. revert i.
  induction l as [| c l IH]; intros i; simpl.
  - pose proof (is_eol_not_nul _ He) as Hz. apply is_nul_false in Hz.
    rewrite Hz. unfold is_eol in He. rewrite He. f_equal. f_equal. lia.
  - inversion_clear Hl as [| ? ? Hc Hl']. inversion_clear Hn as [| ? ? Hz Hn'].
    apply is_nul_false in Hz. rewrite Hz. unfold is_eol in Hc. rewrite Hc.
    rewrite IH by done. f_equal. f_equal. lia.
Qed.

Lemma strpbrk_from_miss l t i :
  Forall (λ c, is_eol c = false) l → Forall (λ c, c ≠ NUL) l →
  strpbrk_from (l ++ NUL :: t) i eol_chars = Ok None.
Proof.
  intros Hl Hn. revert i.
  induction l as [| c l IH]; intros i; simpl; [reflexivity |].
  inversion_clear Hl as [| ? ? Hc Hl']. inversion_clear Hn as [| ? ? Hz Hn'].
  apply is_nul_false in Hz. rewrite Hz. unfold is_eol in Hc. rewrite Hc.
  by apply IH.
Qed.

Lemma string_from_app l t :
  Forall (λ c, c ≠ NUL) l → string_from (l ++ NUL :: t) = Ok l.
Proof.
  induction 1 as [| c l Hz _ IH]; simpl; [reflexivity |].
  apply is_nul_false in Hz. rewrite Hz, IH. reflexivity.
Qed.

Lemma c_chars_app l t : Forall (λ c, c ≠ NUL) l → c_chars (l ++ NUL :: t) = l.
Proof.
  induction 1 as [| c l Hz _ IH]; simpl; [reflexivity |].
  apply is_nul_false in Hz. by rewrite Hz, IH.
Qed.

Lemma terminated_inv l :
  terminated l = true → ∃ rest, l = rest ++ [NUL] ∧ Forall (λ c, c ≠ NUL) rest.
Proof.
  induction l as [| c l IH]; [discriminate |].
  destruct l as [| c' l].
  - simpl. intros ->%is_nul_true. by exists [].
  - change (terminated (c :: c' :: l))
      with (negb (is_nul c) && terminated (c' :: l)).
    intros [Hc Ht]%andb_true_iff. apply negb_true_iff, is_nul_false in Hc.
    destruct (IH Ht) as (rest & -> & Hrest).
    exists (c :: rest). split; [reflexivity | by constructor].
Qed.

Lemma terminated_app rest :
  Forall (λ c, c ≠ NUL) rest → terminated (rest ++ [NUL]) = true.
Proof.
  induction 1 as [| c l Hz _ IH]; [reflexivity |].
  apply is_nul_false in Hz.
  change ((c :: l) ++ [NUL]) with (c :: (l ++ [NUL])).
  destruct (l ++ [NUL]) eqn:E; [by destruct l |].
  change (terminated (c :: a :: l0))
    with (negb (is_nul c) && terminated (a :: l0)).
  by rewrite Hz, IH.
Qed.

(** ** One turn of the loop *)

Section read_loop.
Context {M P : Type} `{!CueParser M P}.

Lemma feed_line_spec (f : cstring) (pre rest : list ascii) (p : P) :
  Forall (λ c, c ≠ NUL) rest → rest ≠ [] →
  feed_line (at_rest f pre rest p) =
    let p1 := Feed (fst (cut_line rest)) p in
    Ok ((λ s, ReplaceURI s f) <$> fst (Get p1),
        passed f pre rest (line_span rest) (snd (Get p1))).
Proof.
  intros Hn Hne.
  pose proof (cut_line_no_eol rest) as Hl.
  unfold passed. rewrite line_span_take, line_span_drop.
  unfold feed_line, at_rest, strpbrk. simpl.
  rewrite drop_app_length.
  destruct (snd (cut_line rest)) as [t |] eqn:Et.
  - destruct (cut_line_Some _ _ Et) as (e & He & Hs).
    set (l := fst (cut_line rest)) in *. clearbody l.
    subst rest. apply Forall_app in Hn as [Hnl Hnt].
    rewrite <- app_assoc. simpl.
    rewrite strpbrk_from_hit by done. simpl.
    unfold store. rewrite decide_True by (rewrite !length_app; simpl; lia).
    simpl. rewrite insert_app_r, insert_app_r_alt by lia.
    rewrite Nat.sub_diag. simpl.
    unfold string_at. rewrite drop_app_length, string_from_app by done.
    simpl.
    replace ((pre ++ l ++ [NUL]) ++ t ++ [NUL])
      with (pre ++ l ++ NUL :: t ++ [NUL]) by (by rewrite <- !app_assoc).
    replace (length (pre ++ l ++ [NUL])) with (S (length pre + length l))
      by (rewrite !length_app; simpl; lia).
    by destruct (Get (Feed l p)) as [[s |] p2].
  - pose proof (cut_line_None _ Et) as Hs.
    set (l := fst (cut_line rest)) in *. clearbody l. subst rest.
    rewrite strpbrk_from_miss by done. simpl.
    unfold strlen, string_at. rewrite drop_app_length.
    rewrite string_from_app by done. simpl.
    rewrite drop_app_length, string_from_app by done. simpl.
    rewrite !app_nil_r, length_app, <- app_assoc.
    by destruct (Get (Feed l p)) as [[s |] p2].
Qed.

Lemma passed_0 (f : cstring) (pre rest : list ascii) (p : P) :
  passed f pre rest 0 p = at_rest f pre rest p.
Proof. unfold passed. by rewrite take_0, drop_0, app_nil_r. Qed.

Lemma passed_passed (f : cstring) (pre rest : list ascii) (k1 k2 : nat) (p : P) :
  passed f (pre ++ (blank <$> take k1 rest)) (drop k1 rest) k2 p =
  passed f pre rest (k1 + k2) p.
Proof.
  unfold passed. rewrite <- (take_take_drop rest k1 k2), fmap_app, drop_drop.
  by rewrite <- app_assoc.
Qed.

Lemma load_at_rest (pre rest : list ascii) :
  load (pre ++ rest ++ [NUL]) (length pre) = Ok (hd NUL rest).
Proof.
  unfold load. rewrite lookup_app_r, Nat.sub_diag by lia.
  by destruct rest.
Qed.

(** Leaving the loop: nothing is left to read. *)
Lemma feed_lines_done (fuel : nat) (f : cstring) (pre : list ascii) (p : P) :
  feed_lines (S fuel) (at_rest f pre [] p) =
    Ok ((λ s, ReplaceURI s f) <$> fst (Get (Finish p)),
        at_rest f pre [] (snd (Get (Finish p)))).
Proof.
  simpl. change (pre ++ [NUL]) with (pre ++ [] ++ [NUL]).
  rewrite load_at_rest. simpl.
  by destruct (Get (Finish p)) as [[s |] p2].
Qed.

(** Staying in the loop: one line is fed, and the loop goes on unless the
    parser has a song. *)
Lemma feed_lines_turn (fuel : nat) (f : cstring) (pre rest : list ascii)
    (p : P) :
  Forall (λ c, c ≠ NUL) rest → rest ≠ [] →
  feed_lines (S fuel) (at_rest f pre rest p) =
    let p1 := Feed (fst (cut_line rest)) p in
    let pl1 := passed f pre rest (line_span rest) (snd (Get p1)) in
    match fst (Get p1) with
    | Some s => Ok (Some (ReplaceURI s f), pl1)
    | None => feed_lines fuel pl1
    end.
Proof.
  intros Hn Hne.
  change (feed_lines (S fuel) (at_rest f pre rest p)) with
    (c ← load (pre ++ rest ++ [NUL]) (length pre);
     if is_nul c then
       let '(song, p') := Get (Finish p) in
       match song with
       | Some s =>
           f' ← deref (filename (set_parser (Some p') (at_rest f pre rest p)));
           Ok (Some (ReplaceURI s f'),
               set_parser (Some p') (at_rest f pre rest p))
       | None => Ok (None, set_parser (Some p') (at_rest f pre rest p))
       end
     else
       r ← feed_line (at_rest f pre rest p);
       match fst r with
       | Some s => Ok r
       | None => feed_lines fuel (snd r)
       end).
  rewrite load_at_rest, feed_line_spec by done.
  destruct rest as [| c rest0]; [done |].
  inversion_clear Hn as [| ? ? Hc _]. apply is_nul_false in Hc.
  simpl hd. simpl mbind. rewrite Hc. simpl.
  by destruct (fst (Get (Feed _ p))).
Qed.

Lemma feed_lines_spec (fuel : nat) (f : cstring) (pre rest : list ascii)
    (p : P) :
  Forall (λ c, c ≠ NUL) rest → length rest < fuel →
  ∃ r pl' k fed fin,
    feed_lines fuel (at_rest f pre rest p) = Ok (r, pl') ∧
    loop_post f pre rest p r pl' k fed fin.
Proof.
  revert pre rest p.
  induction fuel as [| fuel IH]; intros pre rest p Hn Hlen; [lia |].
  destruct (decide (rest = [])) as [-> | Hne].
  - rewrite feed_lines_done.
    eexists _, _, 0, [], true. split; [reflexivity |].
    unfold loop_post. rewrite passed_0. simpl.
    repeat split; try done.
    intros s. destruct (fst (Get (Finish p))); simpl; [| done].
    by intros [= <-].
  - rewrite feed_lines_turn by done. simpl.
    pose proof (line_span_bounds rest Hne) as Hk.
    pose proof (lines_cut rest Hne) as Hcut.
    set (l := fst (cut_line rest)) in *.
    set (k1 := line_span rest) in *.
    destruct (fst (Get (Feed l p))) as [s |] eqn:Es.
    + eexists _, _, k1, [l], false. split; [reflexivity |].
      unfold loop_post. simpl. rewrite Hcut.
      repeat split; try done; try lia.
      by intros s' [= <-].
    + destruct (IH (pre ++ (blank <$> take k1 rest)) (drop k1 rest)
                  (snd (Get (Feed l p))))
        as (r & pl' & k2 & fed & fin & Hrun & Hpost).
      { by apply Forall_drop. }
      { rewrite length_drop. lia. }
      exists r, pl', (k1 + k2), (l :: fed), fin.
      split; [exact Hrun |].
      destruct Hpost as (Hpl & Hk2 & Hfed & Hcount & Hfin & Hr & Hnil & Huri).
      rewrite length_drop in Hk2, Hfin. rewrite drop_drop in Hfed.
      unfold loop_post. rewrite <- passed_passed.
      repeat split; try done; try lia.
      * simpl. by rewrite Hfed.
      * simpl. lia.
      * intros Ht. specialize (Hfin Ht). lia.
Qed.

(** A larger budget does not change a completed run. *)
Lemma feed_lines_mono (fuel fuel' : nat) (pl : EmbeddedCuePlaylist P)
    (x : option (Song M) * EmbeddedCuePlaylist P) :
  feed_lines fuel pl = Ok x → fuel ≤ fuel' → feed_lines fuel' pl = Ok x.
Proof.
  revert fuel' pl.
  induction fuel as [| fuel IH]; intros fuel' pl; [discriminate |].
  destruct fuel' as [| fuel']; [lia |]. intros Hrun Hle.
  simpl in *.
  destruct (deref (cuesheet pl)) as [buf | |]; simpl in *; try done.
  destruct (deref (next pl)) as [nxt | |]; simpl in *; try done.
  destruct (load buf nxt) as [c | |]; simpl in *; try done.
  destruct (is_nul c); [done |].
  destruct (feed_line pl) as [[r1 pl1] | |]; simpl in *; try done.
  destruct r1; [done |]. apply IH; [done | lia].
Qed.

(** ** A whole call *)

Lemma Read_within_at_rest (fuel : nat) (f : cstring) (pre rest : list ascii)
    (p : P) :
  Read_within fuel (at_rest f pre rest p) =
    match fst (Get p) with
    | Some s => Ok (Some s, at_rest f pre rest (snd (Get p)))
    | None => feed_lines fuel (at_rest f pre rest (snd (Get p)))
    end.
Proof.
  unfold Read_within, at_rest. simpl.
  by destruct (Get p) as [[s |] p'].
Qed.

Lemma Read_spec (fuel : nat) (f : cstring) (pre rest : list ascii) (p : P) :
  Forall (λ c, c ≠ NUL) rest → length rest < fuel →
  ∃ r pl',
    Read_within fuel (at_rest f pre rest p) = Ok (r, pl') ∧
    ((∃ s, fst (Get p) = Some s ∧ r = Some s ∧
           pl' = at_rest f pre rest (snd (Get p)))
     ∨ (fst (Get p) = None ∧
        ∃ k fed fin, loop_post f pre rest (snd (Get p)) r pl' k fed fin)).
Proof.
  intros Hn Hfuel. rewrite Read_within_at_rest.
  destruct (fst (Get p)) as [s |] eqn:Es.
  - eexists _, _. split; [reflexivity |]. left. by exists s.
  - destruct (feed_lines_spec fuel f pre rest (snd (Get p)) Hn Hfuel)
      as (r & pl' & k & fed & fin & Hrun & Hpost).
    exists r, pl'. split; [done |]. right. split; [done |].
    by exists k, fed, fin.
Qed.

Lemma Read_unfold (f : cstring) (pre rest : list ascii) (p : P) :
  Read (at_rest f pre rest p) =
  Read_within (length (pre ++ rest ++ [NUL])) (at_rest f pre rest p).
Proof. reflexivity. Qed.

End read_loop.

(** ** Well-formed providers *)

Lemma well_formed_inv {P} (pl : EmbeddedCuePlaylist P) :
  well_formed pl = true →
  ∃ f pre rest p, pl = at_rest f pre rest p ∧ Forall (λ c, c ≠ NUL) rest.
Proof.
  destruct pl as [[f |] [buf |] [nxt |] [p |]]; try done.
  unfold well_formed. simpl. intros Ht.
  destruct (terminated_inv _ Ht) as (rest & Hdrop & Hrest).
  exists f, (take nxt buf), rest, p. split; [| done].
  assert (nxt < length buf) as Hlt.
  { destruct (decide (nxt < length buf)) as [| Hge]; [done |].
    rewrite drop_ge in Hdrop by lia. by destruct rest. }
  unfold at_rest. rewrite length_take, Nat.min_l by lia.
  by rewrite <- Hdrop, take_drop.
Qed.

Lemma well_formed_at_rest {P} (f : cstring) (pre rest : list ascii) (p : P) :
  Forall (λ c, c ≠ NUL) rest → well_formed (at_rest f pre rest p) = true.
Proof.
  intros Hn. unfold well_formed, at_rest. simpl.
  rewrite drop_app_length. by apply terminated_app.
Qed.

Lemma unread_at_rest {P} (f : cstring) (pre rest : list ascii) (p : P) :
  Forall (λ c, c ≠ NUL) rest → unread (at_rest f pre rest p) = rest.
Proof.
  intros Hn. unfold unread, at_rest. simpl.
  rewrite drop_app_length. by apply c_chars_app.
Qed.

Lemma opened_at_rest {M P} `{!CueParser M P} (uri v : cstring) :
  opened (P := P) uri v =
  at_rest (g_path_get_basename uri) [] (c_chars v) new_CueParser.
Proof. reflexivity. Qed.

(** ** Recorded calls *)

Lemma fed_lines_app cl1 cl2 :
  fed_lines (cl1 ++ cl2) = fed_lines cl1 ++ fed_lines cl2.
Proof.
  induction cl1 as [| [l | |] cl1 IH]; simpl; [done | | done | done].
  by rewrite IH.
Qed.

Lemma finish_count_app cl1 cl2 :
  finish_count (cl1 ++ cl2) = finish_count cl1 + finish_count cl2.
Proof.
  induction cl1 as [| [l | |] cl1 IH]; simpl; [done | done | done |].
  by rewrite IH.
Qed.

Lemma fed_lines_line_calls ls : fed_lines (line_calls ls) = ls.
Proof. induction ls as [| l ls IH]; simpl; [done |]. by rewrite IH. Qed.

Lemma finish_count_line_calls ls : finish_count (line_calls ls) = 0.
Proof. induction ls as [| l ls IH]; simpl; done. Qed.

Lemma fed_lines_end_calls fin : fed_lines (end_calls fin) = [].
Proof. by destruct fin. Qed.

Lemma finish_count_end_calls fin :
  finish_count (end_calls fin) = if fin then 1 else 0.
Proof. by destruct fin. Qed.

Section recorded.
Context {M P : Type} `{!CueParser M P}.

Lemma calls_apply_calls (cl : list ParserCall) (q : Logged P) :
  calls (apply_calls cl q) = calls q ++ cl.
Proof.
  unfold apply_calls. revert q.
  induction cl as [| c cl IH]; intros q; simpl; [by rewrite app_nil_r |].
  rewrite IH. destruct c; simpl; by rewrite <- app_assoc.
Qed.

Lemma inner_apply_calls (cl : list ParserCall) (q : Logged P) :
  inner (apply_calls cl q) = apply_calls cl (inner q).
Proof.
  unfold apply_calls. revert q.
  induction cl as [| c cl IH]; intros q; simpl; [done |].
  rewrite IH. by destruct c.
Qed.

Lemma Read_recorded (fuel : nat) (f : cstring) (pre rest : list ascii)
    (q : Logged P) :
  Forall (λ c, c ≠ NUL) rest → length rest < fuel →
  ∃ r pl' k fed fin,
    Read_within fuel (at_rest f pre rest q) = Ok (r, pl') ∧
    read_post f pre rest q r pl' k fed fin.
Proof.
  intros Hn Hfuel.
  destruct (Read_spec fuel f pre rest q Hn Hfuel)
    as (r & pl' & Hrun & [(s & Hs & -> & ->) | (Hnone & k & fed & fin & Hpost)]).
  - exists (Some s), (at_rest f pre rest (snd (Get q))), 0, [], false.
    split; [done |]. unfold read_post. simpl in Hs.
    repeat split; try done; try lia.
    + exists (snd (Get q)). by rewrite passed_0.
    + congruence.
    + intros Hnone. congruence.
  - exists r, pl', k, fed, fin. split; [done |].
    destruct Hpost as (Hpl & Hk & Hfed & Hcount & Hfin & Hr & Hnil & Huri).
    simpl in Hnone. unfold read_post.
    repeat split; try done; try congruence.
    eexists. split; [exact Hpl |].
    rewrite calls_apply_calls. simpl. by rewrite <- app_assoc.
Qed.

End recorded.

(** ** The record does not interfere

    Run on a recording parser, [Read] returns the same song and leaves the
    same provider, record apart, as on the parser underneath. *)

Section erase.
Context {M P : Type} `{!CueParser M P}.

Lemma feed_line_unlog (pl : EmbeddedCuePlaylist (Logged P)) :
  feed_line (unlog pl) = unlog_result <$> feed_line pl.
Proof.
  destruct pl as [f [buf |] [nxt |] q]; try done.
  unfold feed_line, unlog. simpl.
  destruct (strpbrk buf nxt eol_chars) as [[e |] | |]; simpl; try done.
  - destruct (store buf e NUL) as [buf' | |]; simpl; try done.
    destruct (string_at buf' nxt) as [text | |]; simpl; try done.
    destruct q as [q |]; simpl; try done.
    destruct (Get (Feed text (inner q))) as [[s |] p']; simpl; try done;
      by destruct f.
  - destruct (strlen buf nxt) as [n | |]; simpl; try done.
    destruct (string_at buf nxt) as [text | |]; simpl; try done.
    destruct q as [q |]; simpl; try done.
    destruct (Get (Feed text (inner q))) as [[s |] p']; simpl; try done;
      by destruct f.
Qed.

Lemma feed_lines_unlog (fuel : nat) (pl : EmbeddedCuePlaylist (Logged P)) :
  feed_lines fuel (unlog pl) = unlog_result <$> feed_lines fuel pl.
Proof.
  revert pl. induction fuel as [| fuel IH]; intros pl; [done |].
  simpl. rewrite feed_line_unlog.
  destruct pl as [f [buf |] [nxt |] q]; try done. simpl.
  destruct (load buf nxt) as [c | |]; simpl; try done.
  destruct (is_nul c).
  - destruct q as [q |]; simpl; try done.
    destruct (Get (Finish (inner q))) as [[s |] p']; simpl; try done;
      by destruct f.
  - destruct (feed_line _) as [[[s |] pl1] | |]; simpl; try done;
      apply IH.
Qed.

Lemma Read_unlog (pl : EmbeddedCuePlaylist (Logged P)) :
  Read (unlog pl) = unlog_result <$> Read pl.
Proof.
  unfold Read, Read_within.
  destruct pl as [f buf nxt [q |]]; try done. simpl.
  destruct (Get (inner q)) as [[s |] p']; simpl; try done.
  exact (feed_lines_unlog _
           (mkPlaylist f buf nxt
              (Some (mkLogged p' (calls q ++ [CallGet]))))).
Qed.

End erase.

(** Every provider that [open] returns is well-formed, with the whole
    captured value unread and the file's base name as its file name. *)
Lemma open_well_formed {M P W} `{!CueParser M P} `{!TagScanners W}
    (uri : cstring) (w : W) (pl : EmbeddedCuePlaylist P) :
  fst (embcue_playlist_open_uri uri w) = Some pl →
  well_formed pl = true ∧
  filename pl = Some (g_path_get_basename uri) ∧
  ∃ v, selected uri w = Some v ∧ unread pl = c_chars v.
Proof.
  destruct (g_path_is_absolute uri) eqn:Habs;
    [| by rewrite open_not_absolute].
  rewrite open_absolute by done. unfold selected. simpl.
  assert (∀ v, well_formed (opened (P := P) uri v) = true ∧
               unread (opened (P := P) uri v) = c_chars v) as Hv.
  { intros v. rewrite opened_at_rest.
    rewrite well_formed_at_rest, unread_at_rest by apply c_chars_no_nul.
    done. }
  destruct (first_cuesheet (fst (tag_file_scan uri w))) as [va |]; simpl.
  { intros [= <-]. destruct (Hv va). split_and!; [done | done |]. by exists va. }
  destruct (first_cuesheet
              (fst (tag_ape_scan2 uri (snd (tag_file_scan uri w)))))
    as [vb |]; simpl.
  { intros [= <-]. destruct (Hv vb). split_and!; [done | done |]. by exists vb. }
  destruct (first_cuesheet
              (fst (tag_id3_scan uri
                 (snd (tag_ape_scan2 uri (snd (tag_file_scan uri w)))))))
    as [vc |]; simpl; [| done].
  intros [= <-]. destruct (Hv vc). split_and!; [done | done |]. by exists vc.
Qed.

(** * The claims *)

(** ** Open and the tag selector *)

(** C4.  When [uri] is not an absolute path, [open] returns absent and the
    world is left exactly as it was: whatever tags the file carries, no
    scanner has been run (the record of scans is unchanged). *)
Theorem open_rejects_non_absolute {M P W} `{!CueParser M P} `{!TagScanners W}
    (uri : cstring) (w : Watched W) :
  g_path_is_absolute uri = false →
  fst (embcue_playlist_open_uri (P := P) uri w) = None ∧
  snd (embcue_playlist_open_uri (P := P) uri w) = w ∧
  scans (snd (embcue_playlist_open_uri (P := P) uri w)) = scans w.
Proof. intros Hrel. by rewrite open_not_absolute. Qed.

Lemma open_rejects_non_absolute_witness :
  first_cuesheet (file_tags (album_disk remote_uri)) = Some two_track_sheet ∧
  fst (embcue_playlist_open_uri (P := Slots.t) remote_uri
         (mkWatched album_disk [])) = None ∧
  snd (embcue_playlist_open_uri (P := Slots.t) remote_uri
         (mkWatched album_disk [])) = mkWatched album_disk [] ∧
  scans (snd (embcue_playlist_open_uri (P := Slots.t) remote_uri
                (mkWatched album_disk []))) = [].
Proof.
  split; [reflexivity |].
  apply (open_rejects_non_absolute (P := Slots.t) remote_uri
           (mkWatched album_disk [])).
  reflexivity.
Defined.

(** C5.  On an absolute path the scanners run in the order file, APE, ID3,
    and the chain stops after the first scan that selected a value: that
    value is the captured one, whatever the later formats hold. *)
Theorem open_priority_order {M P W} `{!CueParser M P} `{!TagScanners W}
    (uri : cstring) (w : Watched W) :
  g_path_is_absolute uri = true →
  let a := tag_file_scan uri (world w) in
  let b := tag_ape_scan2 uri (snd a) in
  let c := tag_id3_scan uri (snd b) in
  let res := embcue_playlist_open_uri (P := P) uri w in
  match first_cuesheet (fst a), first_cuesheet (fst b),
        first_cuesheet (fst c) with
  | Some v, _, _ =>
      fst res = Some (opened uri v) ∧
      scans (snd res) = scans w ++ [(ScanFile, uri)]
  | None, Some v, _ =>
      fst res = Some (opened uri v) ∧
      scans (snd res) = scans w ++ [(ScanFile, uri); (ScanApe, uri)]
  | None, None, Some v =>
      fst res = Some (opened uri v) ∧
      scans (snd res) =
        scans w ++ [(ScanFile, uri); (ScanApe, uri); (ScanId3, uri)]
  | None, None, None =>
      fst res = None ∧
      scans (snd res) =
        scans w ++ [(ScanFile, uri); (ScanApe, uri); (ScanId3, uri)]
  end.
Proof.
  intros Habs. simpl. rewrite open_absolute by done. simpl.
  destruct (first_cuesheet (fst (tag_file_scan uri (world w)))) as [va |];
    [done |].
  simpl.
  destruct (first_cuesheet
              (fst (tag_ape_scan2 uri (snd (tag_file_scan uri (world w))))))
    as [vb |]; simpl.
  { by rewrite <- app_assoc. }
  destruct (first_cuesheet
              (fst (tag_id3_scan uri
                 (snd (tag_ape_scan2 uri
                    (snd (tag_file_scan uri (world w))))))))
    as [vc |]; simpl; by rewrite <- !app_assoc.
Qed.

Lemma open_priority_order_witness :
  first_cuesheet (id3_tags (mixed_disk album_uri)) = Some (cs "TRACK 09") ∧
  fst (embcue_playlist_open_uri (P := Slots.t) album_uri
         (mkWatched mixed_disk [])) = Some (opened album_uri (cs "TRACK 01")) ∧
  scans (snd (embcue_playlist_open_uri (P := Slots.t) album_uri
                (mkWatched mixed_disk []))) =
    [(ScanFile, album_uri); (ScanApe, album_uri)].
Proof.
  split; [reflexivity |].
  exact (open_priority_order (P := Slots.t) album_uri
           (mkWatched mixed_disk []) eq_refl).
Defined.

(** C6.  Run over any stream of pairs, the selector leaves a provider that
    already holds a value untouched, and otherwise stores a copy of the
    value of the first pair whose name equals CUESHEET up to letter case;
    all other pairs, later matching ones included, have no effect. *)
Theorem tag_selector_first_match {P} (pairs : tag_pairs)
    (pl : EmbeddedCuePlaylist P) :
  visit_pairs pairs pl =
    match cuesheet pl with
    | Some _ => pl
    | None => set_cuesheet (g_strdup <$> first_cuesheet pairs) pl
    end.
Proof.
  destruct (cuesheet pl) as [b |] eqn:E.
  - apply visit_pairs_captured. by rewrite E.
  - by apply visit_pairs_fresh.
Qed.

(** C7, as the code has it.  On an absolute path [open] returns absent
    exactly when none of the three scans selects a CUESHEET value; any
    selected value, the empty one included, yields the provider over it. *)
Theorem open_fails_iff_no_cuesheet {M P W} `{!CueParser M P} `{!TagScanners W}
    (uri : cstring) (w : W) :
  g_path_is_absolute uri = true →
  (fst (embcue_playlist_open_uri (P := P) uri w) = None ↔
   selected uri w = None) ∧
  (∀ v, selected uri w = Some v →
        fst (embcue_playlist_open_uri (P := P) uri w) = Some (opened uri v)).
Proof.
  intros Habs. rewrite open_absolute by done. unfold selected. simpl.
  destruct (first_cuesheet (fst (tag_file_scan uri w))) as [va |]; simpl.
  { split; [done |]. by intros v [= ->]. }
  destruct (first_cuesheet
              (fst (tag_ape_scan2 uri (snd (tag_file_scan uri w)))))
    as [vb |]; simpl.
  { split; [done |]. by intros v [= ->]. }
  destruct (first_cuesheet
              (fst (tag_id3_scan uri
                 (snd (tag_ape_scan2 uri (snd (tag_file_scan uri w)))))))
    as [vc |]; simpl.
  { split; [done |]. by intros v [= ->]. }
  done.
Qed.

Lemma open_fails_iff_no_cuesheet_witness :
  (fst (embcue_playlist_open_uri (P := Slots.t) album_uri mixed_disk) = None ↔
   selected album_uri mixed_disk = None) ∧
  (∀ v, selected album_uri mixed_disk = Some v →
        fst (embcue_playlist_open_uri (P := Slots.t) album_uri mixed_disk) =
        Some (opened album_uri v)).
Proof.
  apply (open_fails_iff_no_cuesheet (P := Slots.t) album_uri mixed_disk).
  reflexivity.
Defined.

(** C7, as stated, fails: the file's CUESHEET value is empty, and [open]
    still returns a provider, one with nothing to read. *)
Lemma open_accepts_empty_cuesheet :
  selected album_uri empty_sheet_disk = Some [] ∧
  ∃ pl : EmbeddedCuePlaylist Slots.t,
    fst (embcue_playlist_open_uri album_uri empty_sheet_disk) = Some pl ∧
    unread pl = [].
Proof. split; [reflexivity |]. eexists. split; reflexivity. Qed.

(** ** Read: one call on a well-formed provider *)

Section read_call.
Context {M P : Type} `{!CueParser M P}.

Lemma passed_well_formed {Q} (f : cstring) (pre rest : list ascii) (k : nat)
    (q : Q) :
  Forall (λ c, c ≠ NUL) rest → well_formed (passed f pre rest k q) = true.
Proof. intros Hn. by apply well_formed_at_rest, Forall_drop. Qed.

Lemma passed_unread {Q} (f : cstring) (pre rest : list ascii) (k : nat)
    (q : Q) :
  Forall (λ c, c ≠ NUL) rest → unread (passed f pre rest k q) = drop k rest.
Proof. intros Hn. by apply unread_at_rest, Forall_drop. Qed.

Lemma passed_next {Q} (f : cstring) (pre rest : list ascii) (k : nat) (q : Q) :
  k ≤ length rest → next (passed f pre rest k q) = Some (length pre + k).
Proof.
  intros Hk. unfold passed, at_rest. simpl.
  rewrite length_app, length_fmap, length_take. f_equal. lia.
Qed.

Lemma passed_cuesheet {Q} (f : cstring) (pre rest : list ascii) (k : nat)
    (q : Q) :
  k ≤ length rest →
  cuesheet (passed f pre rest k q) =
  Some (take (length pre) (pre ++ rest ++ [NUL]) ++
        (blank <$> take k (drop (length pre) (pre ++ rest ++ [NUL]))) ++
        drop (length pre + k) (pre ++ rest ++ [NUL])).
Proof.
  intros Hk. unfold passed, at_rest. simpl.
  rewrite take_app_length, drop_app_length.
  rewrite take_app_le, drop_app_add, drop_app_le by lia.
  by rewrite <- app_assoc.
Qed.

(** What one call does, for every well-formed provider. *)
Lemma Read_step (pl : EmbeddedCuePlaylist (Logged P)) :
  well_formed pl = true →
  ∃ r pl' cl,
    Read pl = Ok (r, pl') ∧
    (∀ fuel, length (unread pl) < fuel → Read_within fuel pl = Ok (r, pl')) ∧
    well_formed pl' = true ∧
    filename pl' = filename pl ∧
    calls_of pl' = calls_of pl ++ cl ∧
    fed_lines cl ++ lines (unread pl') = lines (unread pl) ∧
    length (fed_lines cl) + length (unread pl') ≤ length (unread pl) ∧
    finish_count cl ≤ 1 ∧
    (r = None → finish_count cl = 1 ∧ unread pl' = []) ∧
    (unread pl = [] → next pl' = next pl ∧ cuesheet pl' = cuesheet pl).
Proof.
  intros Hwf.
  destruct (well_formed_inv pl Hwf) as (f & pre & rest & q & -> & Hn).
  rewrite unread_at_rest by done.
  assert (length rest < length (pre ++ rest ++ [NUL])) as Hfuel.
  { rewrite !length_app. simpl. lia. }
  destruct (Read_recorded _ f pre rest q Hn Hfuel)
    as (r & pl' & k & fed & fin & Hrun & Hpost).
  destruct Hpost
    as ((q' & -> & Hcalls) & Hk & Hfed & Hcount & Hfin & Hr & Hback & Huri).
  exists r, (passed f pre rest k q'), (CallGet :: line_calls fed ++ end_calls fin).
  rewrite passed_unread, passed_well_formed by done.
  simpl fed_lines. simpl finish_count.
  rewrite fed_lines_app, finish_count_app, fed_lines_line_calls,
    fed_lines_end_calls, finish_count_line_calls, finish_count_end_calls, app_nil_r.
  rewrite length_drop.
  split_and!; try done.
  - intros fuel Hlt.
    destruct (Read_recorded fuel f pre rest q Hn Hlt)
      as (r2 & pl2 & k2 & fed2 & fin2 & Hrun2 & _).
    rewrite Hrun2. rewrite Read_within_at_rest in Hrun, Hrun2.
    destruct (fst (Get q)); [congruence |].
    destruct (decide (fuel ≤ length (pre ++ rest ++ [NUL]))).
    + rewrite (feed_lines_mono _ _ _ _ Hrun2) in Hrun by done. congruence.
    + rewrite (feed_lines_mono _ _ _ _ Hrun) in Hrun2 by lia. congruence.
  - lia.
  - destruct fin; simpl; lia.
  - intros Hnone. rewrite (Hr Hnone), (Hfin (Hr Hnone)).
    split; [done | apply drop_all].
  - intros ->. simpl in Hk. assert (k = 0) as -> by lia.
    by rewrite passed_0.
Qed.

End read_call.

(** ** Read: the backlog path *)

(** C8.  When the parser already holds a completed song, [Read] returns
    that song at once: the cursor, the text and the file name are as
    before, and the only parser call of this [Read] is the [Get] that
    handed the song out, so no line has been fed. *)
Theorem Read_returns_backlog_first {M P} `{!CueParser M P}
    (pl : EmbeddedCuePlaylist (Logged P)) (q : Logged P) (s : Song M) :
  parser pl = Some q → fst (Get (inner q)) = Some s →
  ∃ pl',
    Read pl = Ok (Some s, pl') ∧
    next pl' = next pl ∧
    cuesheet pl' = cuesheet pl ∧
    filename pl' = filename pl ∧
    calls_of pl' = calls_of pl ++ [CallGet] ∧
    fed_lines (calls_of pl') = fed_lines (calls_of pl).
Proof.
  intros Hq Hs. unfold Read, Read_within, calls_of. rewrite Hq. simpl.
  rewrite Hs. eexists. split; [reflexivity |]. simpl.
  split_and!; try done.
  by rewrite fed_lines_app, app_nil_r.
Qed.

Lemma Read_returns_backlog_first_witness :
  ∃ pl',
    Read backlog_playlist =
      Ok (Some (mkSong (cs "dummy.wav") (cs "TRACK 07")), pl') ∧
    next pl' = next backlog_playlist ∧
    cuesheet pl' = cuesheet backlog_playlist ∧
    filename pl' = filename backlog_playlist ∧
    calls_of pl' = calls_of backlog_playlist ++ [CallGet] ∧
    fed_lines (calls_of pl') = fed_lines (calls_of backlog_playlist).
Proof.
  apply (Read_returns_backlog_first backlog_playlist
           (mkLogged backlog_parser [])); reflexivity.
Defined.

(** Songs that come out of the loop, or out of the [Get] after [Finish],
    carry the provider's file name. *)
Lemma Read_rewrites_fresh_songs {M P} `{!CueParser M P}
    (f : cstring) (pre rest : list ascii) (p : P) (s : Song M)
    (pl' : EmbeddedCuePlaylist P) :
  Forall (λ c, c ≠ NUL) rest → fst (Get p) = None →
  Read (at_rest f pre rest p) = Ok (Some s, pl') →
  uri s = c_chars f.
Proof.
  intros Hn Hnone Hrun.
  assert (length rest < length (pre ++ rest ++ [NUL])) as Hfuel.
  { rewrite !length_app. simpl. lia. }
  destruct (Read_spec _ f pre rest p Hn Hfuel)
    as (r & pl2 & Hrun2 & [(s' & Hs & _) | (_ & k & fed & fin & Hpost)]);
    [congruence |].
  rewrite Read_unfold, Hrun2 in Hrun. injection Hrun as -> ->.
  destruct Hpost as (_ & _ & _ & _ & _ & _ & _ & Huri). by apply Huri.
Qed.

(** C1 fails on the code.  The provider is opened on a file whose sheet
    names [dummy.wav] and has two tracks.  The first [Read] returns track 01
    under the file's base name; [Finish] left track 02 in the parser, the
    second [Read] finds it in its first [Get] and returns it as it is, under
    the sheet's own file reference. *)
Theorem Read_backlog_song_not_rewritten :
  let pl0 : EmbeddedCuePlaylist Slots.t := opened album_uri two_track_sheet in
  fst (embcue_playlist_open_uri album_uri album_disk) = Some pl0 ∧
  filename pl0 = Some (cs "album.flac") ∧
  fst <$> Read_times 3 pl0 =
    Ok [Some (mkSong (cs "album.flac") (cs "TRACK 01"));
        Some (mkSong (cs "dummy.wav") (cs "TRACK 02"));
        None].
Proof. split_and!; vm_compute; reflexivity. Qed.

(** ** Read: termination and the cursor *)

(** C10.  On a well-formed provider every turn of the loop moves the cursor
    forward by at least one character and leaves it inside the block, at a
    string that runs to the block's end; [Read] completes within its budget,
    gives the same outcome with any budget larger than the unread text, and
    feeds at most as many lines as it passes characters. *)
Theorem Read_terminates {M P} `{!CueParser M P}
    (pl : EmbeddedCuePlaylist (Logged P)) :
  well_formed pl = true →
  (unread pl ≠ [] →
   ∃ r1 pl1 buf n n1,
     feed_line pl = Ok (r1, pl1) ∧
     cuesheet pl1 = Some buf ∧ next pl = Some n ∧ next pl1 = Some n1 ∧
     n < n1 < length buf ∧
     well_formed pl1 = true ∧
     length (unread pl1) < length (unread pl)) ∧
  ∃ r pl' cl,
    Read pl = Ok (r, pl') ∧
    (∀ fuel, length (unread pl) < fuel → Read_within fuel pl = Ok (r, pl')) ∧
    well_formed pl' = true ∧
    calls_of pl' = calls_of pl ++ cl ∧
    length (fed_lines cl) + length (unread pl') ≤ length (unread pl).
Proof.
  intros Hwf. split.
  - destruct (well_formed_inv pl Hwf) as (f & pre & rest & q & -> & Hn).
    rewrite unread_at_rest by done. intros Hne.
    pose proof (line_span_bounds rest Hne) as Hk.
    rewrite feed_line_spec by done. simpl.
    eexists _, _, _, (length pre), (length pre + line_span rest).
    split; [reflexivity |].
    rewrite passed_next, passed_well_formed, passed_unread by (done || lia).
    split_and!; try done; try lia.
    + rewrite !length_app, length_fmap, length_take, length_drop. simpl. lia.
    + rewrite length_drop. lia.
  - destruct (Read_step pl Hwf)
      as (r & pl' & cl & Hrun & Hfuel & Hwf' & _ & Hcalls & _ & Hlen & _).
    by exists r, pl', cl.
Qed.

Lemma Read_terminates_witness :
  let pl : EmbeddedCuePlaylist (Logged Slots.t) :=
    opened album_uri two_track_sheet in
  (unread pl ≠ [] →
   ∃ r1 pl1 buf n n1,
     feed_line pl = Ok (r1, pl1) ∧
     cuesheet pl1 = Some buf ∧ next pl = Some n ∧ next pl1 = Some n1 ∧
     n < n1 < length buf ∧
     well_formed pl1 = true ∧
     length (unread pl1) < length (unread pl)) ∧
  ∃ r pl' cl,
    Read pl = Ok (r, pl') ∧
    (∀ fuel, length (unread pl) < fuel → Read_within fuel pl = Ok (r, pl')) ∧
    well_formed pl' = true ∧
    calls_of pl' = calls_of pl ++ cl ∧
    length (fed_lines cl) + length (unread pl') ≤ length (unread pl).
Proof.
  exact (Read_terminates (P := Slots.t) (opened album_uri two_track_sheet)
           eq_refl).
Defined.

(** ** Read: the captured text *)

(** C9, as the code has it.  A call changes the block only between the old
    and the new cursor, and there only by overwriting the line terminators
    it passes with NUL: the block afterwards is the block before with
    [blank] applied to the characters passed.  Its length, everything before
    the old cursor and everything from the new cursor on are as they were. *)
Theorem Read_blanks_passed_terminators_only {M P} `{!CueParser M P}
    (pl : EmbeddedCuePlaylist (Logged P)) :
  well_formed pl = true →
  ∃ r pl' buf buf' n n',
    Read pl = Ok (r, pl') ∧
    cuesheet pl = Some buf ∧ cuesheet pl' = Some buf' ∧
    next pl = Some n ∧ next pl' = Some n' ∧
    n ≤ n' < length buf ∧
    buf' = take n buf ++ (blank <$> take (n' - n) (drop n buf)) ++ drop n' buf ∧
    length buf' = length buf.
Proof.
  intros Hwf.
  destruct (well_formed_inv pl Hwf) as (f & pre & rest & q & -> & Hn).
  assert (length rest < length (pre ++ rest ++ [NUL])) as Hfuel.
  { rewrite !length_app. simpl. lia. }
  destruct (Read_recorded _ f pre rest q Hn Hfuel)
    as (r & pl' & k & fed & fin & Hrun & (q' & -> & _) & Hk & _).
  eexists r, _, _, _, (length pre), (length pre + k).
  split; [exact Hrun |].
  rewrite passed_next, passed_cuesheet by done.
  replace (length pre + k - length pre) with k by lia.
  split_and!; try done; try lia.
  - rewrite !length_app. simpl. lia.
  - rewrite !length_app, length_fmap, !length_take, !length_drop, !length_app.
    simpl. lia.
Qed.

Lemma Read_blanks_passed_terminators_only_witness :
  let pl : EmbeddedCuePlaylist (Logged Slots.t) :=
    opened album_uri two_track_sheet in
  ∃ r pl' buf buf' n n',
    Read pl = Ok (r, pl') ∧
    cuesheet pl = Some buf ∧ cuesheet pl' = Some buf' ∧
    next pl = Some n ∧ next pl' = Some n' ∧
    n ≤ n' < length buf ∧
    buf' = take n buf ++ (blank <$> take (n' - n) (drop n buf)) ++ drop n' buf ∧
    length buf' = length buf.
Proof.
  exact (Read_blanks_passed_terminators_only (P := Slots.t)
           (opened album_uri two_track_sheet) eq_refl).
Defined.

(** C9, as stated, fails: one [Read] over the two-track sheet has put a NUL
    in the place of each of the five terminator characters. *)
Lemma Read_overwrites_the_cuesheet :
  let pl : EmbeddedCuePlaylist Slots.t := opened album_uri two_track_sheet in
  cuesheet pl = Some (two_track_sheet ++ [NUL]) ∧
  (cuesheet ∘ snd) <$> Read pl =
    Ok (Some (cs "FILE dummy.wav" ++ [NUL; NUL] ++ cs "TRACK 01" ++
              [NUL; NUL] ++ cs "TRACK 02" ++ [NUL; NUL])) ∧
  (cuesheet ∘ snd) <$> Read pl ≠ Ok (cuesheet pl).
Proof. split_and!; vm_compute; done. Qed.

(** ** Lines, once more *)

Lemma lines_eol (l t : list ascii) (e : ascii) :
  Forall (λ c, is_eol c = false) l → is_eol e = true →
  lines (l ++ e :: t) = l :: lines t.
Proof.
  intros Hl He. induction Hl as [| c l Hc _ IH]; simpl.
  - by rewrite He.
  - by rewrite Hc, IH.
Qed.

Lemma lines_last (l : list ascii) :
  Forall (λ c, is_eol c = false) l → l ≠ [] → lines l = [l].
Proof.
  induction 1 as [| c l Hc Hl IH]; [done |]. intros _. simpl. rewrite Hc.
  destruct l as [| c' l]; [done |]. by rewrite IH.
Qed.

Lemma with_crlf_no_eol (l : list ascii) :
  Forall (λ c, is_eol c = false) l → with_crlf l = l.
Proof.
  induction 1 as [| c l Hc _ IH]; simpl; [done |].
  destruct (Ascii.eqb_spec c LF) as [-> | _]; [done |]. by rewrite IH.
Qed.

Lemma with_crlf_app (s t : list ascii) :
  with_crlf (s ++ t) = with_crlf s ++ with_crlf t.
Proof.
  induction s as [| c s IH]; simpl; [done |].
  destruct (Ascii.eqb c LF); simpl; by rewrite IH.
Qed.

Lemma with_crlf_lines (t : list ascii) :
  match lines (with_crlf t), lines t with
  | [], [] => True
  | l :: ls, l' :: ls' => l = l' ∧ nonempty_lines ls = nonempty_lines ls'
  | _, _ => False
  end.
Proof.
  assert (∀ ls ls' : list cstring,
            match ls, ls' with
            | [], [] => True
            | l :: ls, l' :: ls' =>
                l = l' ∧ nonempty_lines ls = nonempty_lines ls'
            | _, _ => False
            end → nonempty_lines ls = nonempty_lines ls') as Hne.
  { intros [| l ls] [| l' ls']; try done.
    intros [-> H]. destruct l'; simpl; by rewrite H. }
  induction t as [| c t IH]; simpl; [done |].
  apply Hne in IH as Hnl.
  destruct (Ascii.eqb_spec c LF) as [-> | Hlf]; simpl.
  - done.
  - destruct (is_eol c) eqn:Ec; [done |].
    destruct (lines (with_crlf t)) as [| l ls], (lines t) as [| l' ls'];
      try done.
    destruct IH as [-> Hls]. done.
Qed.

Lemma with_crlf_nonempty_lines (t : list ascii) :
  nonempty_lines (lines (with_crlf t)) = nonempty_lines (lines t).
Proof.
  pose proof (with_crlf_lines t) as H.
  destruct (lines (with_crlf t)) as [| l ls], (lines t) as [| l' ls'];
    try done.
  destruct H as [-> H]. simpl. by rewrite H.
Qed.

(** ** Read: several calls in a row *)

Section read_calls.
Context {M P : Type} `{!CueParser M P}.

Lemma Read_times_spec (n : nat) (pl : EmbeddedCuePlaylist (Logged P)) :
  well_formed pl = true →
  ∃ rs pl' cl,
    Read_times n pl = Ok (rs, pl') ∧
    length rs = n ∧
    well_formed pl' = true ∧
    filename pl' = filename pl ∧
    calls_of pl' = calls_of pl ++ cl ∧
    fed_lines cl ++ lines (unread pl') = lines (unread pl) ∧
    eos_count rs ≤ finish_count cl ≤ n ∧
    (0 < eos_count rs → unread pl' = []) ∧
    (unread pl = [] →
     next pl' = next pl ∧ cuesheet pl' = cuesheet pl ∧ unread pl' = []).
Proof.
  revert pl. induction n as [| n IH]; intros pl Hwf.
  - exists [], pl, []. simpl. rewrite app_nil_r.
    split_and!; try done; lia.
  - destruct (Read_step pl Hwf)
      as (r & pl1 & cl1 & Hrun & _ & Hwf1 & Hf1 & Hc1 & Hl1 & Hlen1 & Hfin1
          & Heos1 & Hend1).
    destruct (IH pl1 Hwf1)
      as (rs & pl2 & cl2 & Hrun2 & Hlen & Hwf2 & Hf2 & Hc2 & Hl2 & Hcnt
          & Heos2 & Hend2).
    exists (r :: rs), pl2, (cl1 ++ cl2).
    simpl. rewrite Hrun. simpl. rewrite Hrun2. simpl.
    rewrite fed_lines_app, finish_count_app, <- app_assoc, Hl2, Hl1.
    split_and!; try done.
    + by rewrite Hlen.
    + congruence.
    + rewrite Hc2, Hc1. by rewrite <- app_assoc.
    + destruct r as [s |]; [lia |].
      destruct (Heos1 eq_refl) as [-> _]. lia.
    + lia.
    + destruct r as [s |]; [done |]. intros _.
      destruct (Heos1 eq_refl) as [_ He]. by apply Hend2.
    + intros He.
      assert (unread pl1 = []) as He1.
      { rewrite He in Hlen1. simpl in Hlen1.
        destruct (unread pl1); [done | simpl in Hlen1; lia]. }
      destruct (Hend1 He) as [Hn1 Hb1]. destruct (Hend2 He1) as (Hn2 & Hb2 & ?).
      split_and!; [congruence | congruence | done].
Qed.

(** A parser that has nothing more to hand out, and on which a repeated
    [Finish] has no effect, keeps [Read] at end-of-sequence. *)
Lemma Read_times_drained (n : nat) (f : cstring) (pre : list ascii)
    (q : Logged P) :
  Get (inner q) = (None, inner q) → Finish (inner q) = inner q →
  ∃ q',
    Read_times n (at_rest f pre [] q) = Ok (replicate n None, at_rest f pre [] q') ∧
    inner q' = inner q ∧
    finish_count (calls q') = finish_count (calls q) + n.
Proof.
  revert q. induction n as [| n IH]; intros q Hget Hfin.
  - exists q. simpl. split_and!; [done | done | lia].
  - set (q1 := mkLogged (inner q) (calls q ++ [CallGet; CallFinish; CallGet])).
    assert (Read (at_rest f pre [] q) = Ok (None, at_rest f pre [] q1)) as Hrun.
    { rewrite Read_unfold, length_app. simpl length.
      rewrite Read_within_at_rest. simpl. rewrite Hget. simpl.
      rewrite Nat.add_1_r, feed_lines_done. simpl. rewrite Hfin, Hget. simpl.
      unfold q1. by rewrite <- !app_assoc. }
    destruct (IH q1) as (q' & Hrun' & Hin' & Hcnt); [done | done |].
    exists q'. simpl. rewrite Hrun. simpl. rewrite Hrun'. simpl.
    split_and!; [done | done |].
    rewrite Hcnt. unfold q1. simpl. rewrite !finish_count_app. simpl. lia.
Qed.

End read_calls.

(** ** Read: the lines fed *)

(** C3, as the code has it.  Over any number of calls on a freshly opened
    provider, the lines fed so far followed by the lines of the unread text
    are the lines of the captured text, and once a call has returned
    end-of-sequence every line has been fed.  The lines of a text are cut at
    each single CR or LF, which is dropped; a last line without terminator
    counts when it is not empty.  A line ending in CR LF is therefore
    followed by an empty line, which the same text with a bare LF does not
    have; the lines that are not empty are the same for both. *)
Theorem Read_feeds_the_lines_of_the_text {M P} `{!CueParser M P}
    (uri v : cstring) (n : nat) :
  (∃ rs pl',
     Read_times n (opened (P := Logged P) uri v) = Ok (rs, pl') ∧
     fed_lines (calls_of pl') ++ lines (unread pl') = lines (c_chars v) ∧
     (0 < eos_count rs → fed_lines (calls_of pl') = lines (c_chars v))) ∧
  lines [] = [] ∧
  (∀ l e t, Forall (λ c, is_eol c = false) l → is_eol e = true →
            lines (l ++ e :: t) = l :: lines t) ∧
  (∀ l, Forall (λ c, is_eol c = false) l → l ≠ [] → lines l = [l]) ∧
  (∀ l t, Forall (λ c, is_eol c = false) l →
          lines (with_crlf (l ++ LF :: t)) = l :: [] :: lines (with_crlf t)) ∧
  (∀ t, nonempty_lines (lines (with_crlf t)) = nonempty_lines (lines t)).
Proof.
  split_and!.
  - assert (well_formed (opened (P := Logged P) uri v) = true) as Hwf.
    { rewrite opened_at_rest. apply well_formed_at_rest, c_chars_no_nul. }
    destruct (Read_times_spec n _ Hwf)
      as (rs & pl' & cl & Hrun & _ & _ & _ & Hcalls & Hlines & _ & Heos & _).
    exists rs, pl'. split; [done |].
    rewrite Hcalls. change (calls_of (opened uri v)) with (@nil ParserCall).
    rewrite opened_at_rest, unread_at_rest in Hlines by apply c_chars_no_nul.
    simpl. split; [done |].
    intros Hpos. rewrite (Heos Hpos) in Hlines. simpl in Hlines.
    by rewrite app_nil_r in Hlines.
  - done.
  - intros l e t. apply lines_eol.
  - apply lines_last.
  - intros l t Hl. rewrite with_crlf_app, with_crlf_no_eol by done. simpl.
    rewrite lines_eol by done. done.
  - apply with_crlf_nonempty_lines.
Qed.

Lemma Read_feeds_the_lines_of_the_text_witness :
  ∃ rs pl',
    Read_times 3 (opened (P := Logged Slots.t) album_uri two_track_sheet)
      = Ok (rs, pl') ∧
    fed_lines (calls_of pl') ++ lines (unread pl')
      = lines (c_chars two_track_sheet) ∧
    (0 < eos_count rs → fed_lines (calls_of pl') = lines (c_chars two_track_sheet)).
Proof.
  exact (proj1 (Read_feeds_the_lines_of_the_text (P := Slots.t) album_uri
                  two_track_sheet 3)).
Defined.

(** C3, as stated, fails: read to the end, the text with CR LF has fed the
    parser three lines, the text with LF two. *)
Lemma crlf_feeds_one_more_line :
  let read_all (v : cstring) :=
    (fed_lines ∘ calls_of ∘ snd) <$>
      Read_times 3 (opened (P := Logged Slots.t) album_uri v) in
  read_all lf_sheet = Ok [cs "TRACK 01"; cs "TRACK 02"] ∧
  read_all (with_crlf lf_sheet) = Ok [cs "TRACK 01"; []; cs "TRACK 02"] ∧
  read_all (with_crlf lf_sheet) ≠ read_all lf_sheet.
Proof. split_and!; vm_compute; done. Qed.

(** ** Read: after the end *)

(** C2, as the code has it.  A call that returns end-of-sequence has run
    [Finish] once and leaves nothing unread.  No later call moves the
    cursor, changes the text or feeds a line; but each later call that
    returns end-of-sequence has run [Finish] again, so the count of [Finish]
    calls grows with the calls.  When the parser left behind has nothing to
    hand out and is not changed by [Get] or [Finish], every later call
    returns end-of-sequence and runs [Finish] once. *)
Theorem Read_after_end_of_sequence {M P} `{!CueParser M P}
    (pl pl1 : EmbeddedCuePlaylist (Logged P)) :
  well_formed pl = true → Read pl = Ok (None, pl1) →
  (∃ cl, calls_of pl1 = calls_of pl ++ cl ∧ finish_count cl = 1) ∧
  unread pl1 = [] ∧
  ∀ n, ∃ rs pl2 cl,
    Read_times n pl1 = Ok (rs, pl2) ∧
    length rs = n ∧
    next pl2 = next pl1 ∧
    cuesheet pl2 = cuesheet pl1 ∧
    calls_of pl2 = calls_of pl1 ++ cl ∧
    fed_lines cl = [] ∧
    eos_count rs ≤ finish_count cl ≤ n ∧
    (∀ q1, parser pl1 = Some q1 →
           Get (inner q1) = (None, inner q1) → Finish (inner q1) = inner q1 →
           rs = replicate n None ∧ finish_count cl = n).
Proof.
  intros Hwf Hrun.
  destruct (Read_step pl Hwf)
    as (r & pl' & cl & Hrun' & _ & Hwf1 & _ & Hcalls & _ & _ & _ & Heos & _).
  rewrite Hrun in Hrun'. injection Hrun' as <- <-.
  destruct (Heos eq_refl) as [Hcnt Hend].
  split_and!; [by exists cl | done |].
  intros n.
  destruct (Read_times_spec n pl1 Hwf1)
    as (rs & pl2 & cl2 & Hrun2 & Hlen & _ & _ & Hcalls2 & Hlines & Hcnt2 & _
        & Hsame).
  destruct (Hsame Hend) as (Hnext & Hbuf & Hend2).
  exists rs, pl2, cl2.
  rewrite Hend, Hend2, app_nil_r in Hlines. simpl in Hlines.
  split_and!; try done; try lia.
  intros q1 Hq1 Hget Hfin.
  destruct (well_formed_inv pl1 Hwf1) as (f & pre & rest & q & -> & Hn).
  rewrite unread_at_rest in Hend by done. subst rest.
  simpl in Hq1. injection Hq1 as <-.
  destruct (Read_times_drained n f pre q Hget Hfin) as (q' & Hrun3 & _ & Hcnt3).
  rewrite Hrun2 in Hrun3. injection Hrun3 as -> ->.
  split; [done |].
  unfold calls_of in Hcalls2. simpl in Hcalls2.
  rewrite Hcalls2, finish_count_app in Hcnt3. lia.
Qed.

Lemma Read_after_end_of_sequence_witness :
  (∃ cl, calls_of ended_playlist = calls_of empty_playlist ++ cl ∧
         finish_count cl = 1) ∧
  unread ended_playlist = [] ∧
  ∀ n, ∃ rs pl2 cl,
    Read_times n ended_playlist = Ok (rs, pl2) ∧
    length rs = n ∧
    next pl2 = next ended_playlist ∧
    cuesheet pl2 = cuesheet ended_playlist ∧
    calls_of pl2 = calls_of ended_playlist ++ cl ∧
    fed_lines cl = [] ∧
    eos_count rs ≤ finish_count cl ≤ n ∧
    (∀ q1, parser ended_playlist = Some q1 →
           Get (inner q1) = (None, inner q1) → Finish (inner q1) = inner q1 →
           rs = replicate n None ∧ finish_count cl = n).
Proof.
  exact (Read_after_end_of_sequence empty_playlist ended_playlist
           eq_refl eq_refl).
Defined.

(** C2, as stated, fails: four calls on the two-track provider return the
    two songs and then end-of-sequence twice, and by then [Finish] has been
    run three times; once in the first call, once in each of the two calls
    that returned end-of-sequence. *)
Lemma Read_finishes_again_after_the_end :
  let run := Read_times 4 (opened (P := Logged Slots.t) album_uri
                             two_track_sheet) in
  (λ x, map (option_map uri) (fst x)) <$> run =
    Ok [Some (cs "album.flac"); Some (cs "dummy.wav"); None; None] ∧
  (λ x, finish_count (calls_of (snd x))) <$> run = Ok 3.
Proof. split_and!; vm_compute; done. Qed.

(** * Further properties of the plugin *)

(** ** What one call does, for any parser *)

Lemma first_cuesheet_app (a b : tag_pairs) :
  first_cuesheet (a ++ b) =
  match first_cuesheet a with
  | Some v => Some v
  | None => first_cuesheet b
  end.
Proof.
  induction a as [| nv a IH]; [done |].
  cbn [first_cuesheet app]. rewrite IH. by case_bool_decide.
Qed.

Section read_effect.
Context {M P : Type} `{!CueParser M P}.

(** The effect of a call on a well-formed provider: how far the cursor
    moves, and the calls the parser receives. *)
Lemma Read_effect (pl : EmbeddedCuePlaylist P) :
  well_formed pl = true →
  ∃ r pl' f p n k fed fin,
    Read pl = Ok (r, pl') ∧
    well_formed pl' = true ∧
    filename pl = Some f ∧ filename pl' = Some f ∧
    parser pl = Some p ∧
    parser pl' =
      Some (apply_calls (CallGet :: line_calls fed ++ end_calls fin) p) ∧
    next pl = Some n ∧ next pl' = Some (n + k) ∧
    k ≤ length (unread pl) ∧
    unread pl' = drop k (unread pl) ∧
    fed ++ lines (unread pl') = lines (unread pl) ∧
    (fin = true → k = length (unread pl)) ∧
    (r = None → fin = true) ∧
    (fst (Get p) = None → ∀ s, r = Some s → uri s = c_chars f).
Proof.
  intros Hwf.
  destruct (well_formed_inv pl Hwf) as (f & pre & rest & p & -> & Hn).
  rewrite unread_at_rest by done.
  assert (length rest < length (pre ++ rest ++ [NUL])) as Hfuel.
  { rewrite !length_app. simpl. lia. }
  destruct (Read_spec _ f pre rest p Hn Hfuel)
    as (r & pl' & Hrun & [(s & Hs & -> & ->) | (Hnone & k & fed & fin & Hpost)]).
  - exists (Some s), (at_rest f pre rest (snd (Get p))), f, p, (length pre), 0,
      [], false.
    rewrite well_formed_at_rest, unread_at_rest, drop_0 by done. simpl.
    split_and!; try done; try lia.
    + by rewrite Nat.add_0_r.
    + congruence.
  - destruct Hpost as (-> & Hk & Hfed & _ & Hfin & Hr & _ & Huri).
    exists r, (passed f pre rest k
                 (apply_calls (line_calls fed ++ end_calls fin) (snd (Get p)))),
      f, p, (length pre), k, fed, fin.
    rewrite passed_well_formed, passed_unread, passed_next by done.
    split_and!; done.
Qed.

(** Any number of calls in a row completes and keeps the provider
    well-formed, under the same file name. *)
Lemma Read_times_safe (n : nat) (pl : EmbeddedCuePlaylist P) :
  well_formed pl = true →
  ∃ rs pl',
    Read_times n pl = Ok (rs, pl') ∧
    length rs = n ∧
    well_formed pl' = true ∧
    filename pl' = filename pl.
Proof.
  revert pl. induction n as [| n IH]; intros pl Hwf.
  - by exists [], pl.
  - destruct (Read_effect pl Hwf)
      as (r & pl1 & f & p & m & k & fed & fin & Hrun & Hwf1 & Hf & Hf1 & _).
    destruct (IH pl1 Hwf1) as (rs & pl2 & Hrun2 & Hlen & Hwf2 & Hf2).
    exists (r :: rs), pl2. simpl. rewrite Hrun. simpl. rewrite Hrun2. simpl.
    split_and!; [done | by rewrite Hlen | done | congruence].
Qed.

End read_effect.

(** ** Open *)

Lemma open_absolute_selected {M P W} `{!CueParser M P} `{!TagScanners W}
    (uri : cstring) (w : W) :
  g_path_is_absolute uri = true →
  fst (embcue_playlist_open_uri (P := P) uri w) =
  opened uri <$> selected uri w.
Proof.
  intros Habs. rewrite open_absolute by done. unfold selected. simpl.
  destruct (first_cuesheet (fst (tag_file_scan uri w))); [done |].
  destruct (first_cuesheet
              (fst (tag_ape_scan2 uri (snd (tag_file_scan uri w)))));
    [done |].
  by destruct (first_cuesheet
                 (fst (tag_id3_scan uri
                    (snd (tag_ape_scan2 uri (snd (tag_file_scan uri w))))))).
Qed.

(** X1.  A provider returned by [open] comes from an absolute path and is
    the provider over the value the fall-back chain selected: its file name
    is the base name of the path, its cursor is at offset 0, its parser is
    fresh, all of the value (up to its first NUL) is unread, and it is
    well-formed. *)
Theorem open_returns_fresh_provider {M P W} `{!CueParser M P}
    `{!TagScanners W} (uri : cstring) (w : W) (pl : EmbeddedCuePlaylist P) :
  fst (embcue_playlist_open_uri uri w) = Some pl →
  g_path_is_absolute uri = true ∧
  ∃ v,
    selected uri w = Some v ∧
    pl = opened uri v ∧
    filename pl = Some (g_path_get_basename uri) ∧
    cuesheet pl = Some (c_chars v ++ [NUL]) ∧
    next pl = Some 0 ∧
    parser pl = Some new_CueParser ∧
    unread pl = c_chars v ∧
    well_formed pl = true.
Proof.
  destruct (g_path_is_absolute uri) eqn:Habs;
    [| by rewrite open_not_absolute].
  intros Hopen. split; [done |].
  rewrite open_absolute_selected in Hopen by done.
  destruct (selected uri w) as [v |]; [| done].
  injection Hopen as <-.
  exists v. rewrite opened_at_rest.
  rewrite well_formed_at_rest, unread_at_rest by apply c_chars_no_nul.
  done.
Qed.

Lemma open_returns_fresh_provider_witness :
  g_path_is_absolute album_uri = true ∧
  ∃ v,
    selected album_uri album_disk = Some v ∧
    opened (P := Slots.t) album_uri two_track_sheet = opened album_uri v ∧
    filename (opened (P := Slots.t) album_uri two_track_sheet)
      = Some (g_path_get_basename album_uri) ∧
    cuesheet (opened (P := Slots.t) album_uri two_track_sheet)
      = Some (c_chars v ++ [NUL]) ∧
    next (opened (P := Slots.t) album_uri two_track_sheet) = Some 0 ∧
    parser (opened (P := Slots.t) album_uri two_track_sheet)
      = Some new_CueParser ∧
    unread (opened (P := Slots.t) album_uri two_track_sheet) = c_chars v ∧
    well_formed (opened (P := Slots.t) album_uri two_track_sheet) = true.
Proof.
  exact (open_returns_fresh_provider (P := Slots.t) album_uri album_disk
           (opened album_uri two_track_sheet) eq_refl).
Defined.

(** X2.  On an absolute path, the value [open] captures is the value of the
    first CUESHEET pair of the three streams put end to end, file tags
    first, then APE, then ID3: stopping the chain at the first success never
    changes which value is captured. *)
Theorem open_selects_first_of_all_streams {M P W} `{!CueParser M P}
    `{!TagScanners W} (uri : cstring) (w : W) :
  g_path_is_absolute uri = true →
  let a := tag_file_scan uri w in
  let b := tag_ape_scan2 uri (snd a) in
  let c := tag_id3_scan uri (snd b) in
  fst (embcue_playlist_open_uri (P := P) uri w) =
  opened uri <$> first_cuesheet (fst a ++ fst b ++ fst c).
Proof.
  intros Habs. simpl. rewrite open_absolute_selected by done.
  unfold selected. simpl. rewrite !first_cuesheet_app.
  destruct (first_cuesheet (fst (tag_file_scan uri w))); [done |].
  by destruct (first_cuesheet
                 (fst (tag_ape_scan2 uri (snd (tag_file_scan uri w))))).
Qed.

Lemma open_selects_first_of_all_streams_witness :
  fst (embcue_playlist_open_uri (P := Slots.t) album_uri mixed_disk) =
  opened album_uri <$>
    first_cuesheet (file_tags (mixed_disk album_uri) ++
                    ape_tags (mixed_disk album_uri) ++
                    id3_tags (mixed_disk album_uri)).
Proof.
  exact (open_selects_first_of_all_streams (P := Slots.t) album_uri
           mixed_disk eq_refl).
Defined.

(** ** Read, for any parser *)

(** X3.  Every provider [open] returns can be read any number of times:
    each call completes (no access outside the block, no null pointer, no
    exhausted budget), and the provider stays well-formed under the base
    name of the path it was opened on. *)
Theorem reads_after_open_complete {M P W} `{!CueParser M P} `{!TagScanners W}
    (uri : cstring) (w : W) (pl : EmbeddedCuePlaylist P) (n : nat) :
  fst (embcue_playlist_open_uri uri w) = Some pl →
  ∃ rs pl',
    Read_times n pl = Ok (rs, pl') ∧
    length rs = n ∧
    well_formed pl' = true ∧
    filename pl' = Some (g_path_get_basename uri).
Proof.
  intros Hopen.
  destruct (g_path_is_absolute uri) eqn:Habs;
    [| by rewrite open_not_absolute in Hopen].
  rewrite open_absolute_selected in Hopen by done.
  destruct (selected uri w) as [v |]; [| done]. injection Hopen as <-.
  assert (well_formed (opened (P := P) uri v) = true) as Hwf.
  { rewrite opened_at_rest. apply well_formed_at_rest, c_chars_no_nul. }
  destruct (Read_times_safe n _ Hwf) as (rs & pl' & Hrun & Hlen & Hwf' & Hf).
  by exists rs, pl'.
Qed.

Lemma reads_after_open_complete_witness :
  ∃ rs pl',
    Read_times 5 (opened (P := Slots.t) album_uri two_track_sheet)
      = Ok (rs, pl') ∧
    length rs = 5 ∧
    well_formed pl' = true ∧
    filename pl' = Some (g_path_get_basename album_uri).
Proof.
  exact (reads_after_open_complete (P := Slots.t) album_uri album_disk
           (opened album_uri two_track_sheet) 5 eq_refl).
Defined.

(** X4.  A call never moves the cursor backwards and never past the text:
    it passes some [k] characters of the unread text, what is unread
    afterwards is the unread text without its first [k] characters, and a
    call that returns end-of-sequence has passed all of it. *)
Theorem Read_moves_cursor_forward {M P} `{!CueParser M P}
    (pl pl' : EmbeddedCuePlaylist P) (r : option (Song M)) :
  well_formed pl = true → Read pl = Ok (r, pl') →
  ∃ n k,
    next pl = Some n ∧ next pl' = Some (n + k) ∧
    k ≤ length (unread pl) ∧
    unread pl' = drop k (unread pl) ∧
    (r = None → k = length (unread pl) ∧ unread pl' = []).
Proof.
  intros Hwf Hrun.
  destruct (Read_effect pl Hwf)
    as (r0 & pl0 & f & p & n & k & fed & fin & Hrun0 & _ & _ & _ & _ & _
        & Hn & Hn' & Hk & Hun & _ & Hfin & Hr & _).
  rewrite Hrun in Hrun0. injection Hrun0 as <- <-.
  exists n, k. split_and!; try done.
  intros Hnone. specialize (Hfin (Hr Hnone)). split; [done |].
  rewrite Hun, Hfin. apply drop_all.
Qed.

Lemma Read_moves_cursor_forward_witness :
  ∃ n k,
    next (opened (P := Slots.t) album_uri remark_sheet) = Some n ∧
    next (after_Read (opened (P := Slots.t) album_uri remark_sheet))
      = Some (n + k) ∧
    k ≤ length (unread (opened (P := Slots.t) album_uri remark_sheet)) ∧
    unread (after_Read (opened (P := Slots.t) album_uri remark_sheet)) =
      drop k (unread (opened (P := Slots.t) album_uri remark_sheet)) ∧
    (@None (Song cstring) = None →
     k = length (unread (opened (P := Slots.t) album_uri remark_sheet)) ∧
     unread (after_Read (opened (P := Slots.t) album_uri remark_sheet)) = []).
Proof.
  exact (Read_moves_cursor_forward
           (opened (P := Slots.t) album_uri remark_sheet)
           (after_Read (opened (P := Slots.t) album_uri remark_sheet))
           None eq_refl eq_refl).
Defined.

(** X5.  When the parser has no completed song as [Read] is entered, a song
    that [Read] returns carries the provider's file name as its source
    reference. *)
Theorem Read_rewrites_songs_it_pulls {M P} `{!CueParser M P}
    (pl pl' : EmbeddedCuePlaylist P) (p : P) (s : Song M) :
  well_formed pl = true → parser pl = Some p → fst (Get p) = None →
  Read pl = Ok (Some s, pl') →
  ∃ f, filename pl = Some f ∧ filename pl' = Some f ∧ uri s = c_chars f.
Proof.
  intros Hwf Hp Hnone Hrun.
  destruct (Read_effect pl Hwf)
    as (r0 & pl0 & f & p0 & n & k & fed & fin & Hrun0 & _ & Hf & Hf' & Hp0 & _
        & _ & _ & _ & _ & _ & _ & _ & Huri).
  rewrite Hrun in Hrun0. injection Hrun0 as <- <-.
  rewrite Hp in Hp0. injection Hp0 as <-.
  exists f. split_and!; [done | done |]. by apply Huri.
Qed.

Lemma Read_rewrites_songs_it_pulls_witness :
  ∃ f,
    filename (opened (P := Slots.t) album_uri two_track_sheet) = Some f ∧
    filename (after_Read (opened (P := Slots.t) album_uri two_track_sheet))
      = Some f ∧
    uri (mkSong (cs "album.flac") (cs "TRACK 01")) = c_chars f.
Proof.
  exact (Read_rewrites_songs_it_pulls
           (opened (P := Slots.t) album_uri two_track_sheet)
           (after_Read (opened (P := Slots.t) album_uri two_track_sheet))
           Slots.empty (mkSong (cs "album.flac") (cs "TRACK 01"))
           eq_refl eq_refl eq_refl eq_refl).
Defined.

(** ** Read and the parser's protocol *)

Lemma lines_Forall (Q : ascii → Prop) (s : list ascii) :
  Forall Q s → Forall (Forall Q) (lines s).
Proof.
  induction 1 as [| c s Hc _ IH]; simpl; [constructor |].
  destruct (is_eol c); [by constructor |].
  destruct (lines s) as [| l ls]; [by repeat constructor |].
  inversion_clear IH. constructor; [by constructor | done].
Qed.

Lemma lines_no_eol (s : list ascii) :
  Forall (Forall (λ c, is_eol c = false)) (lines s).
Proof.
  induction s as [| c s IH]; simpl; [constructor |].
  destruct (is_eol c) eqn:Ec; [by constructor |].
  destruct (lines s) as [| l ls]; [by repeat constructor |].
  inversion_clear IH. constructor; [by constructor | done].
Qed.

Lemma unread_no_nul {P} (pl : EmbeddedCuePlaylist P) :
  Forall (λ c, c ≠ NUL) (unread pl).
Proof.
  unfold unread. destruct (cuesheet pl), (next pl); try constructor.
  apply c_chars_no_nul.
Qed.

Lemma lines_line_char (s : list ascii) :
  Forall (λ c, c ≠ NUL) s → Forall (Forall line_char) (lines s).
Proof.
  intros Hn. pose proof (lines_Forall _ s Hn) as H1.
  pose proof (lines_no_eol s) as H2.
  induction H1 as [| l ls Hl _ IH]; [constructor |].
  inversion_clear H2 as [| ? ? He Hes]. constructor; [| by apply IH].
  clear IH Hes. induction Hl as [| c l Hc _ IH]; [constructor |].
  inversion_clear He as [| ? ? Hce Hle]. constructor; [| by apply IH].
  unfold line_char. split_and!; [| | done].
  - intros ->. by rewrite (proj2 (is_eol_spec CR)) in Hce by auto.
  - intros ->. by rewrite (proj2 (is_eol_spec LF)) in Hce by auto.
Qed.

Lemma no_feed_fed_lines (cl : list ParserCall) :
  no_feed cl = true ↔ fed_lines cl = [].
Proof. induction cl as [| [l | |] cl IH]; simpl; done. Qed.

Lemma no_feed_app (a b : list ParserCall) :
  no_feed (a ++ b) = no_feed a && no_feed b.
Proof. induction a as [| [l | |] a IH]; simpl; done. Qed.

Lemma feeds_precede_finish_fresh (a b : list ParserCall) :
  finish_count a = 0 →
  feeds_precede_finish (a ++ b) = feeds_precede_finish b.
Proof. induction a as [| [l | |] a IH]; simpl; done || auto. Qed.

Lemma no_feed_precede (b : list ParserCall) :
  no_feed b = true → feeds_precede_finish b = true.
Proof. induction b as [| [l | |] b IH]; simpl; intros H; try done; auto. Qed.

Lemma feeds_precede_finish_quiet (a b : list ParserCall) :
  feeds_precede_finish a = true → no_feed b = true →
  feeds_precede_finish (a ++ b) = true.
Proof.
  induction a as [| [l | |] a IH]; simpl; intros Ha Hb.
  - by apply no_feed_precede.
  - by apply IH.
  - by apply IH.
  - by rewrite no_feed_app, Ha, Hb.
Qed.

Lemma feeds_precede_finish_step (fed : list cstring) (fin : bool) :
  feeds_precede_finish (CallGet :: line_calls fed ++ end_calls fin) = true.
Proof. simpl. induction fed as [| l fed IH]; simpl; [by destruct fin | done]. Qed.

Section protocol.
Context {M P : Type} `{!CueParser M P}.

(** The effect of a call, read off the record. *)
Lemma Read_effect_recorded (pl : EmbeddedCuePlaylist (Logged P)) :
  well_formed pl = true →
  ∃ r pl' fed fin,
    Read pl = Ok (r, pl') ∧
    well_formed pl' = true ∧
    calls_of pl' = calls_of pl ++ CallGet :: line_calls fed ++ end_calls fin ∧
    fed ++ lines (unread pl') = lines (unread pl) ∧
    (fin = true → unread pl' = []) ∧
    (unread pl = [] → unread pl' = []) ∧
    (r = None → fin = true).
Proof.
  intros Hwf.
  destruct (Read_effect pl Hwf)
    as (r & pl' & f & q & n & k & fed & fin & Hrun & Hwf' & _ & _ & Hq & Hq'
        & _ & _ & Hk & Hun & Hfed & Hfin & Hr & _).
  exists r, pl', fed, fin. unfold calls_of. rewrite Hq, Hq'. simpl.
  rewrite calls_apply_calls. simpl.
  split_and!; try done.
  - by rewrite <- app_assoc.
  - intros Ht. rewrite Hun, (Hfin Ht). apply drop_all.
  - intros He. rewrite Hun, He. by destruct k.
Qed.

(** With a parser that stays silent, the loop runs over the whole text and
    ends in [Finish] and a last [Get]. *)
Lemma silent_apply_calls (cl : list ParserCall) (p : P) :
  silent p → silent (apply_calls cl p).
Proof.
  intros Hs cl'. unfold apply_calls. rewrite <- foldl_app. apply Hs.
Qed.

Lemma feed_lines_silent (fuel : nat) (f : cstring) (pre rest : list ascii)
    (p : P) :
  Forall (λ c, c ≠ NUL) rest → length rest < fuel → silent p →
  feed_lines fuel (at_rest f pre rest p) =
    Ok (None,
        passed f pre rest (length rest)
          (apply_calls (line_calls (lines rest) ++ [CallFinish; CallGet]) p)).
Proof.
  revert pre rest p.
  induction fuel as [| fuel IH]; intros pre rest p Hn Hlen Hs; [lia |].
  destruct (decide (rest = [])) as [-> | Hne].
  - rewrite feed_lines_done, passed_0. simpl.
    pose proof (Hs [CallFinish]) as Hfin. unfold apply_calls in Hfin.
    simpl in Hfin. by rewrite Hfin.
  - rewrite feed_lines_turn by done. simpl.
    pose proof (line_span_bounds rest Hne) as Hk.
    pose proof (Hs [CallFeed (fst (cut_line rest))]) as Hfeed.
    unfold apply_calls in Hfeed. simpl in Hfeed. rewrite Hfeed.
    rewrite (lines_cut rest Hne).
    unfold passed at 1. rewrite IH.
    + rewrite passed_passed, length_drop.
      replace (line_span rest + (length rest - line_span rest))
        with (length rest) by lia.
      done.
    + by apply Forall_drop.
    + rewrite length_drop. lia.
    + apply (silent_apply_calls [CallFeed (fst (cut_line rest)); CallGet]), Hs.
Qed.

End protocol.

(** X6.  No line handed to the parser contains a carriage return, a line
    feed or a NUL. *)
Theorem Read_feeds_clean_lines {M P} `{!CueParser M P}
    (pl pl' : EmbeddedCuePlaylist (Logged P)) (r : option (Song M)) :
  well_formed pl = true → Read pl = Ok (r, pl') →
  ∃ cl,
    calls_of pl' = calls_of pl ++ cl ∧
    Forall (Forall line_char) (fed_lines cl).
Proof.
  intros Hwf Hrun.
  destruct (Read_effect_recorded pl Hwf)
    as (r0 & pl0 & fed & fin & Hrun0 & _ & Hcalls & Hfed & _).
  rewrite Hrun in Hrun0. injection Hrun0 as <- <-.
  eexists. split; [exact Hcalls |].
  simpl. rewrite fed_lines_app, fed_lines_line_calls, fed_lines_end_calls,
    app_nil_r.
  pose proof (lines_line_char (unread pl) (unread_no_nul pl)) as Hall.
  rewrite <- Hfed in Hall. by apply Forall_app in Hall as [Hall _].
Qed.

Lemma Read_feeds_clean_lines_witness :
  ∃ cl,
    calls_of (after_Read (opened (P := Logged Slots.t) album_uri remark_sheet))
      = calls_of (opened (P := Logged Slots.t) album_uri remark_sheet) ++ cl ∧
    Forall (Forall line_char) (fed_lines cl).
Proof.
  exact (Read_feeds_clean_lines
           (opened (P := Logged Slots.t) album_uri remark_sheet)
           (after_Read (opened (P := Logged Slots.t) album_uri remark_sheet))
           None eq_refl eq_refl).
Defined.

(** X7.  The parser calls of one [Read] follow a fixed pattern: one [Get];
    then, for each line fed, the [Feed] and one [Get]; and last, only when
    the text has been passed to its end, [Finish] and one [Get].  A call
    that returns end-of-sequence always ends in [Finish] and [Get]. *)
Theorem Read_call_pattern {M P} `{!CueParser M P}
    (pl pl' : EmbeddedCuePlaylist (Logged P)) (r : option (Song M)) :
  well_formed pl = true → Read pl = Ok (r, pl') →
  ∃ fed fin,
    calls_of pl' = calls_of pl ++ CallGet :: line_calls fed ++ end_calls fin ∧
    (fin = true → unread pl' = []) ∧
    (r = None → fin = true).
Proof.
  intros Hwf Hrun.
  destruct (Read_effect_recorded pl Hwf)
    as (r0 & pl0 & fed & fin & Hrun0 & _ & Hcalls & _ & Hfin & _ & Hr).
  rewrite Hrun in Hrun0. injection Hrun0 as <- <-.
  by exists fed, fin.
Qed.

Lemma Read_call_pattern_witness :
  ∃ fed fin,
    calls_of (after_Read (opened (P := Logged Slots.t) album_uri remark_sheet))
      = calls_of (opened (P := Logged Slots.t) album_uri remark_sheet) ++
        CallGet :: line_calls fed ++ end_calls fin ∧
    (fin = true →
     unread (after_Read (opened (P := Logged Slots.t) album_uri remark_sheet))
       = []) ∧
    (@None (Song cstring) = None → fin = true).
Proof.
  exact (Read_call_pattern
           (opened (P := Logged Slots.t) album_uri remark_sheet)
           (after_Read (opened (P := Logged Slots.t) album_uri remark_sheet))
           None eq_refl eq_refl).
Defined.

(** X8.  Over the whole life of a provider, the parser is never fed after
    it has been finished: in the calls of any number of reads on a freshly
    opened provider, every [Feed] comes before the first [Finish]. *)
Theorem Read_never_feeds_after_Finish {M P} `{!CueParser M P}
    (uri v : cstring) (n : nat) :
  ∃ rs pl',
    Read_times n (opened (P := Logged P) uri v) = Ok (rs, pl') ∧
    feeds_precede_finish (calls_of pl') = true.
Proof.
  assert (∀ (pl : EmbeddedCuePlaylist (Logged P)),
            well_formed pl = true →
            feeds_precede_finish (calls_of pl) = true →
            (0 < finish_count (calls_of pl) → unread pl = []) →
            ∃ rs pl',
              Read_times n pl = Ok (rs, pl') ∧
              feeds_precede_finish (calls_of pl') = true) as Hinv.
  { induction n as [| n IH]; intros pl Hwf Hord Hend.
    - by exists [], pl.
    - destruct (Read_effect_recorded pl Hwf)
        as (r & pl1 & fed & fin & Hrun & Hwf1 & Hcalls & Hfed & Hfin & Hstay
            & _).
      destruct (IH pl1 Hwf1) as (rs & pl2 & Hrun2 & Hord2).
      + rewrite Hcalls.
        destruct (decide (finish_count (calls_of pl) = 0)) as [Hz | Hnz].
        * rewrite feeds_precede_finish_fresh by done.
          apply feeds_precede_finish_step.
        * apply feeds_precede_finish_quiet; [done |].
          apply no_feed_fed_lines.
          rewrite (Hend ltac:(lia)), (Hstay (Hend ltac:(lia))) in Hfed.
          simpl in Hfed. rewrite app_nil_r in Hfed. subst fed.
          simpl. by rewrite fed_lines_end_calls.
      + rewrite Hcalls, finish_count_app. simpl.
        rewrite finish_count_app, finish_count_line_calls,
          finish_count_end_calls.
        intros Hpos.
        destruct (decide (finish_count (calls_of pl) = 0)) as [Hz | Hnz].
        * apply Hfin. destruct fin; [done | simpl in Hpos; lia].
        * apply Hstay, Hend. lia.
      + exists (r :: rs), pl2. simpl. rewrite Hrun. simpl. rewrite Hrun2.
        done. }
  apply Hinv.
  - rewrite opened_at_rest. apply well_formed_at_rest, c_chars_no_nul.
  - done.
  - simpl. lia.
Qed.

(** X9.  With a parser that never has a song, the first [Read] feeds every
    line of the unread text, in order and each followed by one [Get], then
    calls [Finish] once and [Get] once more, and returns end-of-sequence
    with nothing left unread. *)
Theorem Read_without_songs {M P} `{!CueParser M P}
    (pl : EmbeddedCuePlaylist (Logged P)) (q : Logged P) :
  well_formed pl = true → parser pl = Some q → silent (inner q) →
  ∃ pl',
    Read pl = Ok (None, pl') ∧
    calls_of pl' =
      calls_of pl ++
      CallGet :: line_calls (lines (unread pl)) ++ [CallFinish; CallGet] ∧
    unread pl' = [].
Proof.
  intros Hwf Hq Hs.
  destruct (well_formed_inv pl Hwf) as (f & pre & rest & q0 & -> & Hn).
  simpl in Hq. injection Hq as ->.
  rewrite unread_at_rest by done.
  assert (silent q) as Hsq.
  { intros cl. simpl. rewrite inner_apply_calls. apply Hs. }
  rewrite Read_unfold, Read_within_at_rest.
  pose proof (Hsq []) as Hfirst. unfold apply_calls in Hfirst.
  simpl foldl in Hfirst. rewrite Hfirst.
  rewrite feed_lines_silent; [| done | rewrite !length_app; simpl; lia |].
  - eexists. split; [reflexivity |].
    rewrite passed_unread by done. unfold calls_of. simpl.
    rewrite calls_apply_calls. simpl. rewrite <- app_assoc.
    split; [done | apply drop_all].
  - apply (silent_apply_calls [CallGet]), Hsq.
Qed.

Lemma Read_without_songs_witness :
  ∃ pl',
    Read (M := cstring)
      (opened (M := cstring) (P := Logged unit) album_uri remark_sheet)
      = Ok (None, pl') ∧
    calls_of pl' =
      calls_of (opened (M := cstring) (P := Logged unit) album_uri
                  remark_sheet) ++
      CallGet ::
        line_calls
          (lines (unread (opened (M := cstring) (P := Logged unit) album_uri
                            remark_sheet))) ++
        [CallFinish; CallGet] ∧
    unread pl' = [].
Proof.
  exact (Read_without_songs (M := cstring)
           (opened (M := cstring) (P := Logged unit) album_uri remark_sheet)
           (mkLogged tt []) eq_refl eq_refl (fun cl => eq_refl)).
Defined.

(** * Tag settings *)

Lemma land_pow2 (a n : Z) :
  (0 ≤ n)%Z → Z.land a (2 ^ n) = if Z.testbit a n then (2 ^ n)%Z else 0%Z.
Proof.
  intros Hn. apply Z.bits_inj'. intros m Hm.
  rewrite Z.land_spec, Z.pow2_bits_eqb by done.
  destruct (Z.eqb_spec n m) as [-> | Hne].
  - rewrite andb_true_r. destruct (Z.testbit a m) eqn:E.
    + by rewrite Z.pow2_bits_true.
    + by rewrite Z.bits_0.
  - rewrite andb_false_r. destruct (Z.testbit a n).
    + by rewrite Z.pow2_bits_false.
    + by rewrite Z.bits_0.
Qed.

Lemma shift_1u_in_range (tag : Z) :
  (0 ≤ tag < 32)%Z → shift_1u tag = Ok (2 ^ tag)%Z.
Proof.
  intros [Hlo Hhi]. unfold shift_1u, UINT_BITS.
  rewrite (proj2 (Z.leb_le 0 tag)), (proj2 (Z.ltb_lt tag 32)) by done. simpl.
  rewrite Z.shiftl_1_l, Z.mod_small; [done |].
  split; [by apply Z.pow_nonneg |]. by apply Z.pow_lt_mono_r.
Qed.

Lemma IsTagEnabled_in_range (mask tag : Z) :
  (0 ≤ tag < 32)%Z → IsTagEnabled mask tag = Ok (Z.testbit mask tag).
Proof.
  intros Hr. unfold IsTagEnabled. rewrite shift_1u_in_range by done. simpl.
  rewrite land_pow2 by lia. f_equal.
  destruct (Z.testbit mask tag); [| done].
  apply negb_true_iff, Z.eqb_neq.
  assert (0 < 2 ^ tag)%Z by (apply Z.pow_pos_nonneg; lia). lia.
Qed.

(** X10.  [IsTagEnabled] answers with bit [tag] of the mask, for every mask
    and every [tag] below 32; only the low 32 bits of the mask are ever
    looked at.  From 32 on the shift it performs is undefined. *)
Theorem IsTagEnabled_tests_the_bit (global_tag_mask tag : Z) :
  IsTagEnabled global_tag_mask tag =
    if (0 <=? tag)%Z && (tag <? 32)%Z
    then Ok (Z.testbit global_tag_mask tag)
    else Fault.
Proof.
  destruct ((0 <=? tag)%Z && (tag <? 32)%Z) eqn:E.
  - apply andb_true_iff in E as [Hlo%Z.leb_le Hhi%Z.ltb_lt].
    by apply IsTagEnabled_in_range.
  - unfold IsTagEnabled, shift_1u, UINT_BITS. by rewrite E.
Qed.

(** X11.  For enumerators numbered below 32: or-ing the bit of one tag into
    the mask makes that tag enabled and leaves the answer for every tag of
    another number as it was; clearing the bit makes the tag disabled and
    likewise leaves the others. *)
Theorem IsTagEnabled_after_mask_update {TagType : Type} (number : TagType → Z)
    (global_tag_mask : Z) (t u : TagType) :
  (0 ≤ number t < 32)%Z → (0 ≤ number u < 32)%Z →
  IsTagEnabled_TagType number
    (Z.lor global_tag_mask (Z.shiftl 1 (number t))) u =
    (if (number u =? number t)%Z then Ok true
     else IsTagEnabled_TagType number global_tag_mask u) ∧
  IsTagEnabled_TagType number
    (Z.ldiff global_tag_mask (Z.shiftl 1 (number t))) u =
    (if (number u =? number t)%Z then Ok false
     else IsTagEnabled_TagType number global_tag_mask u).
Proof.
  intros Ht Hu. unfold IsTagEnabled_TagType.
  rewrite !IsTagEnabled_in_range by done.
  rewrite Z.lor_spec, Z.ldiff_spec, Z.shiftl_1_l, Z.pow2_bits_eqb by lia.
  rewrite (Z.eqb_sym (number t) (number u)).
  destruct (number u =? number t)%Z; simpl.
  - by rewrite orb_true_r, andb_false_r.
  - by rewrite orb_false_r, andb_true_r.
Qed.

Lemma IsTagEnabled_after_mask_update_witness :
  IsTagEnabled_TagType Z.of_nat (Z.lor 5 (Z.shiftl 1 (Z.of_nat 3))) 2 =
    (if (Z.of_nat 2 =? Z.of_nat 3)%Z then Ok true
     else IsTagEnabled_TagType Z.of_nat 5 2) ∧
  IsTagEnabled_TagType Z.of_nat (Z.ldiff 5 (Z.shiftl 1 (Z.of_nat 3))) 2 =
    (if (Z.of_nat 2 =? Z.of_nat 3)%Z then Ok false
     else IsTagEnabled_TagType Z.of_nat 5 2).
Proof.
  apply (IsTagEnabled_after_mask_update Z.of_nat 5 3 2); simpl; lia.
Defined.
